(** * Atomix Go client: sharded Set and atomic Value primitives

    A shallow embedding of [pkg/client/set] (the multi-partition [set]
    wrapper) and [pkg/client/value] (the single-partition [value]), with the
    properties of the partitioning layer, the fan-out reducers and the
    conditional [Set] / [Get] / [Watch] operations of the atomic value. *)

From Stdlib Require Import ZArith List String Ascii Bool Lia Permutation.
Import ListNotations.
Local Open Scope string_scope.
Local Open Scope list_scope.
Local Open Scope Z_scope.

(* ================================================================== *)
(** ** Go values: machine integers, errors, panics                      *)
(* ================================================================== *)

Module Go.

(** [int] is 64 bits wide on the platforms the client is built for;
    arithmetic wraps around in two's complement. *)
Definition int_min : Z := - 2 ^ 63.
Definition int_max : Z := 2 ^ 63 - 1.
Definition wrap_int (z : Z) : Z := (z + 2 ^ 63) mod 2 ^ 64 - 2 ^ 63.
Definition int_add (a b : Z) : Z := wrap_int (a + b).

(** [uint64] and [uint32]. *)
Definition wrap_uint64 (z : Z) : Z := z mod 2 ^ 64.
Definition wrap_uint32 (z : Z) : Z := z mod 2 ^ 32.

(** [len(xs)] as an [int]. *)
Definition len {A : Type} (xs : list A) : Z := Z.of_nat (List.length xs).

(** The [error] interface.  [errors_New] is [errors.New(text)]; the other
    constructors are the error kinds of the runtime (spec, section 7). *)
Inductive error : Type :=
  | errors_New (text : string)
  | NoPartitions
  | TransportError (msg : string)
  | SessionOpenFailed
  | SessionExpired
  | SessionClosed
  | StreamGap
  | OutOfOrder.

(** A [[]byte]. *)
Definition bytes : Type := list Byte.byte.

Section Exec.
Variable W : Type.

(** A call that leaves the process: it returns and may change the world
    [W] (the remote partitions), but does not panic. *)
Definition Call (A : Type) : Type := W -> A * W.

(** Outcome of running client code: it returns, or the goroutine
    panics (index out of range, failed type assertion). *)
Inductive Res (A : Type) : Type :=
  | Done (a : A) (w : W)
  | Panic (msg : string).

Definition M (A : Type) : Type := W -> Res A.

Definition ret {A : Type} (a : A) : M A := fun w => Done A a w.

Definition bind {A B : Type} (c : M A) (k : A -> M B) : M B :=
  fun w => match c w with
           | Done _ a w' => k a w'
           | Panic _ msg => Panic B msg
           end.

Definition panic {A : Type} (msg : string) : M A := fun _ => Panic A msg.

Definition call {A : Type} (c : Call A) : M A :=
  fun w => let '(a, w') := c w in Done A a w'.

(** [xs[i]] on a slice: a run-time panic outside [0, len(xs)). *)
Definition index {A : Type} (xs : list A) (i : Z) : M A :=
  if (i <? 0) || (len xs <=? i)
  then panic "index out of range"
  else match nth_error xs (Z.to_nat i) with
       | Some x => ret x
       | None => panic "index out of range"
       end.
End Exec.

Arguments Done {W A} a w.
Arguments Panic {W A} msg.
Arguments ret {W A} a _.
Arguments bind {W A B} c k _.
Arguments panic {W A} msg _.
Arguments call {W A} c _.
Arguments index {W A} xs i _.

End Go.

Import Go.

Declare Scope go_scope.
Delimit Scope go_scope with go.
Notation "x <- c ;; k" := (bind c (fun x => k))
  (at level 100, c at next level, right associativity) : go_scope.
Notation "' pat <- c ;; k" := (bind c (fun x => match x with pat => k end))
  (at level 100, pat pattern, c at next level, right associativity) : go_scope.
Local Open Scope go_scope.

(* ================================================================== *)
(** ** Package util: partitioner and fan-out                            *)
(* ================================================================== *)

Module util.

Section Partitioner.
(** The non-cryptographic hash of a key; the partitioner is stated for
    any such function. *)
Variable hash : string -> Z.

(** Modelled from the spec: [util.GetPartitionIndex] is not among the
    sources.  Section 4.1: a hash of the key mod N; if N = 0 the error
    [NoPartitions]. *)
Definition GetPartitionIndex (key : string) (partitions : Z)
  : Z * option error :=
  if partitions =? 0 then (0, Some NoPartitions)
  else (hash key mod partitions, None).
End Partitioner.

(** The invocations of a fan-out over [n] that exist, in the order of
    the schedule [sched]. *)
Definition invocations (n : Z) (sched : list nat) : list nat :=
  filter (fun i => Z.of_nat i <? n) sched.

Section FanOut.
Context {W A : Type}.

(** Modelled from the spec: [util.ExecuteAsync], [util.ExecuteOrderedAsync]
    and [util.IterAsync] are not among the sources.  Section 4.2: the
    invocations f(0) .. f(n-1) run concurrently; all three utilities fail
    with the first error observed.  The order in which the invocations
    complete is the schedule [sched], a permutation of 0 .. n-1 chosen
    by the scheduler; each remote call is atomic on the world.

    [gather f order] takes the completions in the order [order], and
    stops at the first one that carries an error. *)
Fixpoint gather (f : Z -> M W (A * option error)) (sched : list nat)
  : M W (list (nat * A) * option error) :=
  match sched with
  | [] => ret ([], None)
  | i :: rest =>
      '(r, err) <- f (Z.of_nat i) ;;
      match err with
      | Some e => ret ([], Some e)
      | None =>
          '(rs, err') <- gather f rest ;;
          match err' with
          | Some e => ret ([], Some e)
          | None => ret ((i, r) :: rs, None)
          end
      end
  end.

(** Unordered fan-out: results in completion order. *)
Definition ExecuteAsync (sched : list nat) (n : Z)
    (f : Z -> M W (A * option error)) : M W (list A * option error) :=
  '(done, err) <- gather f (invocations n sched) ;;
  match err with
  | Some e => ret ([], Some e)
  | None => ret (map snd done, None)
  end.

(** The slot of index [i] in the output buffer of the ordered fan-out;
    a slot nobody wrote holds [nil_]. *)
Fixpoint slot (nil_ : A) (done : list (nat * A)) (i : nat) : A :=
  match done with
  | [] => nil_
  | (j, r) :: rest => if Nat.eqb j i then r else slot nil_ rest i
  end.

(** Ordered fan-out: a list of n results in index order. *)
Definition ExecuteOrderedAsync (nil_ : A) (sched : list nat) (n : Z)
    (f : Z -> M W (A * option error)) : M W (list A * option error) :=
  '(done, err) <- gather f (invocations n sched) ;;
  match err with
  | Some e => ret ([], Some e)
  | None => ret (map (slot nil_ done) (seq 0 (Z.to_nat n)), None)
  end.
End FanOut.

Section Iter.
Context {W : Type}.

(** Async iterate: the first error, or nil. *)
Definition IterAsync (sched : list nat) (n : Z)
    (f : Z -> M W (option error)) : M W (option error) :=
  '(_, err) <-
    gather (A := unit) (fun i => e <- f i ;; ret (tt, e))
           (invocations n sched) ;;
  ret err.
End Iter.

End util.

(* ================================================================== *)
(** ** Package set: the multi-partition Set                             *)
(* ================================================================== *)

Module set.

Section Sharded.
Context {W : Type}.

(** Collaborators of the package that the wrapper only passes along:
    the partitioner's hash, gRPC connections, session options, the
    handle of the caller's event channel, and the per-partition
    constructor [newPartition]. *)
Variable hash : string -> Z.
Variable ClientConn : Type.
Variable SessionOption : Type.
Variable chan : Type.

(** [type Set interface]: what one partition of the set offers.  Every
    method is a remote call. *)
Record Set_ : Type := {
  Add : string -> Call W (bool * option error);
  Remove : string -> Call W (bool * option error);
  Contains : string -> Call W (bool * option error);
  Size : Call W (Z * option error);
  Clear : Call W (option error);
  Listen : chan -> Call W (option error);
  Close : Call W (option error);
  Delete : Call W (option error)
}.

Variable newPartition :
  ClientConn -> string -> string -> list SessionOption ->
  Call W (option Set_ * option error).

(** The dynamic values an [interface{}] holds in this package. *)
Inductive iface : Type :=
  | inil
  | iint (n : Z)
  | iSet (p : Set_).

Definition of_Set (p : option Set_) : iface :=
  match p with Some p => iSet p | None => inil end.

(** [type set struct] *)
Record set : Type := {
  Namespace : string;
  Name : string;
  partitions : list Set_
}.

(** [for i, result := range results { sets[i] = result.(Set) }] *)
Fixpoint assert_Sets (results : list iface) : M W (list Set_) :=
  match results with
  | [] => ret []
  | iSet p :: rest => sets <- assert_Sets rest ;; ret (p :: sets)
  | _ :: _ => panic "interface conversion: not a Set"
  end.

(** The function literal of [New]. *)
Definition New_fn (namespace name : string) (conns : list ClientConn)
    (opts : list SessionOption) : Z -> M W (iface * option error) :=
  fun i =>
    conn <- index conns i ;;
    '(p, e) <- call (newPartition conn namespace name opts) ;;
    ret (of_Set p, e).

Definition New (sched : list nat) (namespace name : string)
    (conns : list ClientConn) (opts : list SessionOption)
  : M W (option set * option error) :=
  '(results, err) <-
    util.ExecuteOrderedAsync inil sched (len conns)
      (New_fn namespace name conns opts) ;;
  match err with
  | Some e => ret (None, Some e)
  | None =>
      sets <- assert_Sets results ;;
      ret (Some {| Namespace := namespace; Name := name;
                   partitions := sets |}, None)
  end.

Definition getPartition (s : set) (key : string)
  : M W (option Set_ * option error) :=
  let '(i, err) := util.GetPartitionIndex hash key (len (partitions s)) in
  match err with
  | Some e => ret (None, Some e)
  | None => p <- index (partitions s) i ;; ret (Some p, None)
  end.

(** A method call on the partition [getPartition] returned. *)
Definition on_partition {A : Type} (partition : option Set_)
    (m : Set_ -> Call W A) : M W A :=
  match partition with
  | Some p => call (m p)
  | None => panic "nil pointer dereference"
  end.

Definition set_Add (s : set) (value : string) : M W (bool * option error) :=
  '(partition, err) <- getPartition s value ;;
  match err with
  | Some e => ret (false, Some e)
  | None => on_partition partition (fun p => Add p value)
  end.

Definition set_Remove (s : set) (value : string)
  : M W (bool * option error) :=
  '(partition, err) <- getPartition s value ;;
  match err with
  | Some e => ret (false, Some e)
  | None => on_partition partition (fun p => Remove p value)
  end.

Definition set_Contains (s : set) (value : string)
  : M W (bool * option error) :=
  '(partition, err) <- getPartition s value ;;
  match err with
  | Some e => ret (false, Some e)
  | None => on_partition partition (fun p => Contains p value)
  end.

(** [for _, result := range results { size += result.(int) }] *)
Fixpoint sum_results (results : list iface) (size : Z) : M W Z :=
  match results with
  | [] => ret size
  | iint n :: rest => sum_results rest (int_add size n)
  | _ :: _ => panic "interface conversion: not an int"
  end.

(** The function literal of [Size]. *)
Definition Size_fn (s : set) : Z -> M W (iface * option error) :=
  fun i =>
    p <- index (partitions s) i ;;
    '(n, e) <- call (Size p) ;;
    ret (iint n, e).

Definition set_Size (sched : list nat) (s : set) : M W (Z * option error) :=
  '(results, err) <-
    util.ExecuteAsync sched (len (partitions s)) (Size_fn s) ;;
  match err with
  | Some e => ret (0, Some e)
  | None => size <- sum_results results 0 ;; ret (size, None)
  end.

(** The broadcast operations: one invocation per partition through
    [util.IterAsync]. *)
Definition broadcast_fn (s : set) (m : Set_ -> Call W (option error))
  : Z -> M W (option error) :=
  fun i => p <- index (partitions s) i ;; call (m p).

Definition broadcast (sched : list nat) (s : set)
    (m : Set_ -> Call W (option error)) : M W (option error) :=
  util.IterAsync sched (len (partitions s)) (broadcast_fn s m).

Definition set_Clear (sched : list nat) (s : set) : M W (option error) :=
  broadcast sched s Clear.

Definition set_Listen (sched : list nat) (s : set) (ch : chan)
  : M W (option error) :=
  broadcast sched s (fun p => Listen p ch).

Definition set_Close (sched : list nat) (s : set) : M W (option error) :=
  broadcast sched s Close.

Definition set_Delete (sched : list nat) (s : set) : M W (option error) :=
  broadcast sched s Delete.

End Sharded.

Arguments Add {W chan} s _ _.
Arguments Remove {W chan} s _ _.
Arguments Contains {W chan} s _ _.
Arguments Size {W chan} s _.
Arguments Clear {W chan} s _.
Arguments Listen {W chan} s _ _.
Arguments Close {W chan} s _.
Arguments Delete {W chan} s _.
Arguments Namespace {W chan} s.
Arguments Name {W chan} s.
Arguments partitions {W chan} s.
Arguments inil {W chan}.
Arguments iint {W chan} n.
Arguments iSet {W chan} p.
Arguments New {W ClientConn SessionOption chan} newPartition sched
  namespace name conns opts _.
Arguments New_fn {W ClientConn SessionOption chan} newPartition
  namespace name conns opts i _.
Arguments Size_fn {W chan} s i _.
Arguments sum_results {W chan} results size _.
Arguments assert_Sets {W chan} results _.
Arguments of_Set {W chan} p.
Arguments broadcast_fn {W chan} s m i _.
Arguments getPartition {W} hash {chan} s key _.
Arguments set_Add {W} hash {chan} s value _.
Arguments set_Remove {W} hash {chan} s value _.
Arguments set_Contains {W} hash {chan} s value _.
Arguments set_Size {W chan} sched s _.
Arguments set_Clear {W chan} sched s _.
Arguments set_Listen {W chan} sched s ch _.
Arguments set_Close {W chan} sched s _.
Arguments set_Delete {W chan} sched s _.

End set.

(* ================================================================== *)
(** ** Package value: the atomic Value                                  *)
(* ================================================================== *)

Module value.

(** [primitive.Name] *)
Record PrimitiveName : Type := {
  pn_Namespace : string;
  pn_Name : string
}.

(** The headers of [atomix/headers], with the fields the runtime reads
    (spec, section 3). *)
Record RequestHeader : Type := {
  rq_SessionID : Z;
  rq_RequestID : Z;
  rq_Index : Z
}.

Record ResponseHeader : Type := {
  rs_SessionID : Z;
  rs_Index : Z;
  rs_StreamID : Z;
  rs_ResponseID : Z
}.

(** The messages of [atomix/value], with the fields [value.go] uses.  A
    header pointer that was never set is [None]. *)
Record SetRequest : Type := {
  SetRequest_Header : option RequestHeader;
  ExpectVersion : Z;
  SetRequest_Value : bytes
}.

Record SetResponse : Type := {
  SetResponse_Header : ResponseHeader;
  SetResponse_Version : Z;
  Succeeded : bool
}.

Record GetRequest : Type := { GetRequest_Header : option RequestHeader }.

Record GetResponse : Type := {
  GetResponse_Header : ResponseHeader;
  GetResponse_Value : bytes;
  GetResponse_Version : Z
}.

Record EventRequest : Type := { EventRequest_Header : option RequestHeader }.

Record EventResponse : Type := {
  EventResponse_Header : ResponseHeader;
  NewValue : bytes;
  NewVersion : Z
}.

(** [&api.SetRequest{}] *)
Definition empty_SetRequest : SetRequest :=
  {| SetRequest_Header := None; ExpectVersion := 0; SetRequest_Value := [] |}.

(** [type EventType string] with its one constant. *)
Definition EventType : Type := string.

Definition EventUpdated : EventType := "updated".

Record Event : Type := {
  Type_ : EventType;
  Value : bytes;
  Version : Z
}.

(** [type SetOption interface]: the two hooks update the message they
    are handed. *)
Record SetOption : Type := {
  beforeSet : SetRequest -> SetRequest;
  afterSet : SetResponse -> SetResponse
}.

(** [for i := range opts { opts[i].beforeSet(request) }] *)
Definition apply_beforeSet (opts : list SetOption) (request : SetRequest)
  : SetRequest :=
  fold_left (fun rq o => beforeSet o rq) opts request.

(** [for i := range opts { opts[i].afterSet(response) }] *)
Definition apply_afterSet (opts : list SetOption) (response : SetResponse)
  : SetResponse :=
  fold_left (fun rs o => afterSet o rs) opts response.

(** Modelled from the spec: the option constructors are not among the
    sources.  Seed scenario 1 ("Set(B, expectVersion=1)"): the option
    records the expected version in the request. *)
Definition IfVersion (version : Z) : SetOption :=
  {| beforeSet := fun rq =>
       {| SetRequest_Header := SetRequest_Header rq;
          ExpectVersion := version;
          SetRequest_Value := SetRequest_Value rq |};
     afterSet := fun rs => rs |}.

Section Client.
Context {W : Type}.

(** Collaborators: connections, the channel returned by a command
    stream, the caller's event channel, the addresses of the partitions
    and the session options. *)
Variable ClientConn : Type.
Variable Stream : Type.
Variable chan : Type.
Variable Address : Type.
Variable SessionOption : Type.

(** [api.ValueService_EventsClient] *)
Record EventsClient : Type := {
  Recv : Call W (EventResponse * option error)
}.

(** [api.ValueServiceClient] *)
Record ValueServiceClient : Type := {
  rpc_Set : SetRequest -> Call W (SetResponse * option error);
  rpc_Get : GetRequest -> Call W (GetResponse * option error);
  rpc_Events : EventRequest -> Call W (option EventsClient * option error)
}.

Variable NewValueServiceClient : ClientConn -> ValueServiceClient.

(** The dynamic values an [interface{}] holds in this package. *)
Inductive iface : Type :=
  | inil
  | iSetResponse (r : SetResponse)
  | iGetResponse (r : GetResponse)
  | iEventResponse (r : EventResponse)
  | iEventsClient (c : EventsClient).

(** The function a caller hands to [DoCommand] and [DoQuery]. *)
Definition request_fn : Type :=
  ClientConn -> RequestHeader ->
  M W (option ResponseHeader * iface * option error).

(** The two functions a caller hands to [DoCommandStream]. *)
Definition open_fn : Type :=
  ClientConn -> RequestHeader -> M W (iface * option error).
Definition recv_fn : Type :=
  iface -> M W (option ResponseHeader * iface * option error).

(** [*session.Session], through the methods [value.go] calls. *)
Record Session : Type := {
  DoCommand : request_fn -> M W (iface * option error);
  DoQuery : request_fn -> M W (iface * option error);
  DoCommandStream : open_fn -> recv_fn -> M W (option Stream * option error);
  session_Close : M W (option error);
  session_Delete : M W (option error)
}.

Variable session_New :
  PrimitiveName -> Address -> list SessionOption ->
  M W (option Session * option error).

(** [type value struct]; the session pointer may be nil. *)
Record value : Type := {
  name : PrimitiveName;
  session : option Session
}.

(** [v.session], dereferenced by a method call. *)
Definition the_session (v : value) : M W Session :=
  match session v with
  | Some sess => ret sess
  | None => panic "nil pointer dereference"
  end.

Definition newValue (name : PrimitiveName) (address : Address)
    (opts : list SessionOption) : M W (option value * option error) :=
  '(sess, err) <- session_New name address opts ;;
  match err with
  | Some e => ret (None, Some e)
  | None => ret (Some {| name := name; session := sess |}, None)
  end.

Definition New (hash : string -> Z) (name : PrimitiveName)
    (partitions : list Address) (opts : list SessionOption)
  : M W (option value * option error) :=
  let '(i, err) :=
    util.GetPartitionIndex hash (pn_Name name) (len partitions) in
  match err with
  | Some e => ret (None, Some e)
  | None => address <- index partitions i ;; newValue name address opts
  end.


(** The command of [Set]: the function literal handed to [DoCommand]. *)
Definition Set_fn (value : bytes) (opts : list SetOption) : request_fn :=
  fun conn header =>
    let client := NewValueServiceClient conn in
    let request :=
      apply_beforeSet opts
        {| SetRequest_Header := Some header;
           ExpectVersion := 0;
           SetRequest_Value := value |} in
    '(response, err) <- call (rpc_Set client request) ;;
    match err with
    | Some e => ret (None, inil, Some e)
    | None =>
        let response := apply_afterSet opts response in
        ret (Some (SetResponse_Header response), iSetResponse response, None)
    end.

Definition Set_command (v : value) (value : bytes) (opts : list SetOption)
  : M W (iface * option error) :=
  sess <- the_session v ;; DoCommand sess (Set_fn value opts).

Definition value_Set (v : value) (value : bytes) (opts : list SetOption)
  : M W (Z * option error) :=
  let request := apply_beforeSet opts empty_SetRequest in
  '(r, err) <- Set_command v value opts ;;
  match err with
  | Some e => ret (0, Some e)
  | None =>
      match r with
      | iSetResponse response =>
          if negb (Succeeded response) then
            if 0 <? ExpectVersion request
            then ret (0, Some (errors_New "version mismatch"))
            else ret (0, Some (errors_New "value mismatch"))
          else ret (SetResponse_Version response, None)
      | _ => panic "interface conversion: not a *SetResponse"
      end
  end.

Definition Get_fn : request_fn :=
  fun conn header =>
    let client := NewValueServiceClient conn in
    let request := {| GetRequest_Header := Some header |} in
    '(response, err) <- call (rpc_Get client request) ;;
    match err with
    | Some e => ret (None, inil, Some e)
    | None =>
        ret (Some (GetResponse_Header response), iGetResponse response, None)
    end.

Definition value_Get (v : value) : M W (bytes * Z * option error) :=
  '(r, err) <- (sess <- the_session v ;; DoQuery sess Get_fn) ;;
  match err with
  | Some e => ret ([], 0, Some e)
  | None =>
      match r with
      | iGetResponse response =>
          ret (GetResponse_Value response, GetResponse_Version response,
               None)
      | _ => panic "interface conversion: not a *GetResponse"
      end
  end.

Definition Watch_open : open_fn :=
  fun conn header =>
    let client := NewValueServiceClient conn in
    let request := {| EventRequest_Header := Some header |} in
    '(c, err) <- call (rpc_Events client request) ;;
    ret (match c with Some c => iEventsClient c | None => inil end, err).

Definition Watch_recv : recv_fn :=
  fun responses =>
    match responses with
    | iEventsClient c =>
        '(response, err) <- call (Recv c) ;;
        match err with
        | Some e => ret (None, inil, Some e)
        | None =>
            ret (Some (EventResponse_Header response),
                 iEventResponse response, None)
        end
    | _ => panic "interface conversion: not a ValueService_EventsClient"
    end.

(** A goroutine started by [Watch]: it forwards the events of [stream]
    to [ch] and closes [ch] when the stream ends. *)
Inductive goroutine : Type :=
  | forwarder (stream : option Stream) (ch : chan).

(** [Watch] returns its error together with the goroutines it started. *)
Definition value_Watch (v : value) (ch : chan)
  : M W (option error * list goroutine) :=
  '(stream, err) <-
    (sess <- the_session v ;; DoCommandStream sess Watch_open Watch_recv) ;;
  match err with
  | Some e => ret (Some e, [])
  | None => ret (None, [forwarder stream ch])
  end.

Definition value_Close (v : value) : M W (option error) :=
  sess <- the_session v ;; session_Close sess.

Definition value_Delete (v : value) : M W (option error) :=
  sess <- the_session v ;; session_Delete sess.

(** *** The forwarding goroutine of [Watch]

    [pending] is the content of the stream channel, [sent] the events
    that went through [ch] so far (what the consumer has observed or is
    about to), [produced] the history of the stream channel. *)
Inductive status : Type := Running | Finished | Panicked.

Record pipe : Type := {
  produced : list iface;
  pending : list iface;
  stream_closed : bool;
  sent : list Event;
  ch_closed : bool;
  state : status
}.

Definition pipe0 : pipe :=
  {| produced := []; pending := []; stream_closed := false;
     sent := []; ch_closed := false; state := Running |}.

(** The body of the loop: [response := event.( *api.EventResponse )]
    and the event built from it. *)
Definition to_Event (event : iface) : option Event :=
  match event with
  | iEventResponse response =>
      Some {| Type_ := EventUpdated;
              Value := NewValue response;
              Version := NewVersion response |}
  | _ => None
  end.

Inductive step : pipe -> pipe -> Prop :=
  | step_produce p x :
      stream_closed p = false ->
      step p {| produced := produced p ++ [x]; pending := pending p ++ [x];
                stream_closed := false; sent := sent p;
                ch_closed := ch_closed p; state := state p |}
  | step_close_stream p :
      step p {| produced := produced p; pending := pending p;
                stream_closed := true; sent := sent p;
                ch_closed := ch_closed p; state := state p |}
  | step_forward p x rest ev :
      state p = Running -> pending p = x :: rest -> to_Event x = Some ev ->
      step p {| produced := produced p; pending := rest;
                stream_closed := stream_closed p; sent := sent p ++ [ev];
                ch_closed := ch_closed p; state := Running |}
  | step_panic p x rest :
      state p = Running -> pending p = x :: rest -> to_Event x = None ->
      step p {| produced := produced p; pending := rest;
                stream_closed := stream_closed p; sent := sent p;
                ch_closed := ch_closed p; state := Panicked |}
  | step_finish p :
      state p = Running -> pending p = [] -> stream_closed p = true ->
      step p {| produced := produced p; pending := [];
                stream_closed := true; sent := sent p;
                ch_closed := true; state := Finished |}.

Inductive steps : pipe -> pipe -> Prop :=
  | steps_refl p : steps p p
  | steps_step p q r : steps p q -> step q r -> steps p r.

(** The goroutine run to the end on a stream that delivered [events]
    and was closed: the events it sends, or [None] if it panics. *)
Fixpoint forward (events : list iface) : option (list Event) :=
  match events with
  | [] => Some []
  | x :: rest =>
      match to_Event x with
      | Some ev => option_map (cons ev) (forward rest)
      | None => None
      end
  end.

End Client.

Arguments name {W ClientConn Stream} v.
Arguments the_session {W ClientConn Stream} v _.
Arguments DoCommand {W ClientConn Stream} s fn _.
Arguments DoQuery {W ClientConn Stream} s fn _.
Arguments DoCommandStream {W ClientConn Stream} s open recv _.
Arguments session_Close {W ClientConn Stream} s _.
Arguments session_Delete {W ClientConn Stream} s _.
Arguments Set_fn {W ClientConn} NewValueServiceClient value opts conn
  header _.
Arguments Get_fn {W ClientConn} NewValueServiceClient conn header _.
Arguments Watch_open {W ClientConn} NewValueServiceClient conn header _.
Arguments Watch_recv {W} responses _.
Arguments session {W ClientConn Stream} v.
Arguments newValue {W ClientConn Stream Address SessionOption} session_New
  name address opts _.
Arguments New {W ClientConn Stream Address SessionOption} session_New hash
  name partitions opts _.
Arguments Set_command {W ClientConn Stream} NewValueServiceClient v value
  opts _.
Arguments value_Set {W ClientConn Stream} NewValueServiceClient v value
  opts _.
Arguments value_Get {W ClientConn Stream} NewValueServiceClient v _.
Arguments value_Watch {W ClientConn Stream chan} NewValueServiceClient v
  ch _.
Arguments forwarder {Stream chan} stream ch.

End value.

(* ================================================================== *)
(** ** A reference partition for the atomic Value                       *)
(* ================================================================== *)

Module ref.
Import value.

(** Session states (spec, section 3). *)
Inductive session_state : Type := Opening | Open | Closing | Closed | Expired.

Record SessionState : Type := {
  session_id : Z;
  last_request_id : Z;
  last_index : Z;
  sstate : session_state
}.

(** A server stream: its id, the next response id and the responses
    emitted and not yet received. *)
Record ServerStream : Type := {
  stream_id : Z;
  next_response_id : Z;
  queue : list EventResponse
}.

Record ServerState : Type := {
  stored_value : bytes;
  stored_version : Z;
  srv_index : Z;
  srv_streams : list ServerStream
}.

Record World : Type := {
  sess : SessionState;
  srv : ServerState
}.

Definition with_sess (w : World) (s : SessionState) : World :=
  {| sess := s; srv := srv w |}.
Definition with_srv (w : World) (s : ServerState) : World :=
  {| sess := sess w; srv := s |}.

Definition header_session (h : option RequestHeader) : Z :=
  match h with Some h => rq_SessionID h | None => 0 end.

Definition response_header (h : option RequestHeader) (idx : Z)
  : ResponseHeader :=
  {| rs_SessionID := header_session h; rs_Index := idx;
     rs_StreamID := 0; rs_ResponseID := 0 |}.

Definition emit (idx : Z) (v : bytes) (ver : Z) (st : ServerStream)
  : ServerStream :=
  {| stream_id := stream_id st;
     next_response_id := next_response_id st + 1;
     queue := queue st ++
       [{| EventResponse_Header :=
             {| rs_SessionID := 0; rs_Index := idx;
                rs_StreamID := stream_id st;
                rs_ResponseID := next_response_id st |};
           NewValue := v; NewVersion := ver |}] |}.

(** Modelled from the spec: the partition that holds the value is not
    among the sources.  Seed scenarios 1 and 3 and the round-trip
    property of section 8: a write whose expected version is set and
    differs from the stored one is refused and changes nothing; an
    accepted write stores the value, increments the version and emits
    one update event on every open stream; every command advances the
    state-machine index. *)
Definition server_Set (rq : SetRequest) : Call World (SetResponse * option error) :=
  fun w =>
    let s := srv w in
    let idx := srv_index s + 1 in
    if (0 <? ExpectVersion rq) && negb (ExpectVersion rq =? stored_version s)
    then
      ({| SetResponse_Header := response_header (SetRequest_Header rq) idx;
          SetResponse_Version := stored_version s;
          Succeeded := false |}, None,
       with_srv w {| stored_value := stored_value s;
                     stored_version := stored_version s;
                     srv_index := idx;
                     srv_streams := srv_streams s |})
    else
      let ver := wrap_uint64 (stored_version s + 1) in
      ({| SetResponse_Header := response_header (SetRequest_Header rq) idx;
          SetResponse_Version := ver;
          Succeeded := true |}, None,
       with_srv w {| stored_value := SetRequest_Value rq;
                     stored_version := ver;
                     srv_index := idx;
                     srv_streams :=
                       map (emit idx (SetRequest_Value rq) ver)
                           (srv_streams s) |}).

(** Modelled from the spec: a read returns the stored value and version
    at the current index. *)
Definition server_Get (rq : GetRequest) : Call World (GetResponse * option error) :=
  fun w =>
    let s := srv w in
    ({| GetResponse_Header :=
          response_header (GetRequest_Header rq) (srv_index s);
        GetResponse_Value := stored_value s;
        GetResponse_Version := stored_version s |}, None, w).

Definition no_event : EventResponse :=
  {| EventResponse_Header := response_header None 0;
     NewValue := []; NewVersion := 0 |}.

Fixpoint take_event (id : Z) (streams : list ServerStream)
  : option EventResponse * list ServerStream :=
  match streams with
  | [] => (None, [])
  | st :: rest =>
      if stream_id st =? id then
        match queue st with
        | [] => (None, streams)
        | ev :: q =>
            (Some ev,
             {| stream_id := stream_id st;
                next_response_id := next_response_id st;
                queue := q |} :: rest)
        end
      else
        let '(ev, rest') := take_event id rest in (ev, st :: rest')
  end.

(** Modelled from the spec: receiving on a server stream takes the oldest
    response not yet received; when there is none the stream has ended
    for the moment, which the model reports as end of file. *)
Definition server_Recv (id : Z) : Call World (EventResponse * option error) :=
  fun w =>
    let s := srv w in
    let '(ev, streams) := take_event id (srv_streams s) in
    match ev with
    | Some ev =>
        (ev, None,
         with_srv w {| stored_value := stored_value s;
                       stored_version := stored_version s;
                       srv_index := srv_index s;
                       srv_streams := streams |})
    | None => (no_event, Some (errors_New "EOF"), w)
    end.

(** Modelled from the spec: opening the event stream registers a new
    stream whose responses are numbered from 1. *)
Definition server_Events (rq : EventRequest)
  : Call World (option (@EventsClient World) * option error) :=
  fun w =>
    let s := srv w in
    let id := Z.of_nat (List.length (srv_streams s)) + 1 in
    (Some {| Recv := server_Recv id |}, None,
     with_srv w {| stored_value := stored_value s;
                   stored_version := stored_version s;
                   srv_index := srv_index s + 1;
                   srv_streams := srv_streams s ++
                     [{| stream_id := id; next_response_id := 1;
                         queue := [] |}] |}).

Definition service : @ValueServiceClient World :=
  {| rpc_Set := server_Set; rpc_Get := server_Get;
     rpc_Events := server_Events |}.

Definition NewValueServiceClient (conn : unit) : @ValueServiceClient World :=
  service.

(** The channel a command stream returns, as the lazy sequence behind
    it: the stream object and the function that receives from it. *)
Record Stream : Type := {
  source : @iface World;
  next : @recv_fn World
}.

Definition set_state (st : session_state) : M World unit :=
  fun w =>
    Done tt (with_sess w {| session_id := session_id (sess w);
                            last_request_id := last_request_id (sess w);
                            last_index := last_index (sess w);
                            sstate := st |}).

Definition set_last_index (idx : Z) : M World unit :=
  fun w =>
    Done tt (with_sess w {| session_id := session_id (sess w);
                            last_request_id := last_request_id (sess w);
                            last_index := idx;
                            sstate := sstate (sess w) |}).

(** The next request id, allocated in the session. *)
Definition next_request : M World RequestHeader :=
  fun w =>
    let s := sess w in
    let id := wrap_uint64 (last_request_id s + 1) in
    Done {| rq_SessionID := session_id s; rq_RequestID := id;
            rq_Index := last_index s |}
         (with_sess w {| session_id := session_id s;
                         last_request_id := id;
                         last_index := last_index s;
                         sstate := sstate s |}).

(** The header of a query: no new request id, the last index as floor. *)
Definition query_header : M World RequestHeader :=
  fun w =>
    let s := sess w in
    Done {| rq_SessionID := session_id s;
            rq_RequestID := last_request_id s;
            rq_Index := last_index s |} w.

Definition usable : M World (option error) :=
  fun w =>
    match sstate (sess w) with
    | Open => Done None w
    | Expired => Done (Some SessionExpired) w
    | _ => Done (Some SessionClosed) w
    end.

Definition is_expired (e : error) : bool :=
  match e with SessionExpired => true | _ => false end.

(** The response header reconciled with the session: an index below the
    last one seen fails the call with [OutOfOrder]. *)
Definition reconcile
    (out : option ResponseHeader * @iface World * option error)
  : M World (@iface World * option error) :=
  let '(rh, r, err) := out in
  match err with
  | Some e =>
      _ <- (if is_expired e then set_state Expired else ret tt) ;;
      ret (inil, Some e)
  | None =>
      match rh with
      | None => panic "nil pointer dereference"
      | Some h =>
          fun w =>
            if rs_Index h <? last_index (sess w)
            then Done (inil, Some OutOfOrder) w
            else (_ <- set_last_index (rs_Index h) ;; ret (r, None)) w
      end
  end.

(** Modelled from the spec: [session.Session] is not among the sources.
    Section 4.4: [do_command] allocates the next request id, runs the
  function, and updates the last index from the response header;
  [do_query] sends the last index as read floor; a session that is
  closed or expired fails every operation. *)
Definition DoCommand (fn : @request_fn World unit)
  : M World (@iface World * option error) :=
  ok <- usable ;;
  match ok with
  | Some e => ret (inil, Some e)
  | None => header <- next_request ;; out <- fn tt header ;; reconcile out
  end.

Definition DoQuery (fn : @request_fn World unit)
  : M World (@iface World * option error) :=
  ok <- usable ;;
  match ok with
  | Some e => ret (inil, Some e)
  | None => header <- query_header ;; out <- fn tt header ;; reconcile out
  end.

Definition DoCommandStream (open : @open_fn World unit)
    (recv : @recv_fn World) : M World (option Stream * option error) :=
  ok <- usable ;;
  match ok with
  | Some e => ret (None, Some e)
  | None =>
      header <- next_request ;;
      '(c, err) <- open tt header ;;
      match err with
      | Some e => ret (None, Some e)
      | None => ret (Some {| source := c; next := recv |}, None)
      end
  end.

(** Modelled from the spec: [close] is idempotent; [delete] after
  [close] fails with [SessionClosed]. *)
Definition Close : M World (option error) :=
  _ <- set_state Closed ;; ret None.

Definition Delete : M World (option error) :=
  ok <- usable ;;
  match ok with
  | Some e => ret (Some e)
  | None =>
      _ <- set_state Closed ;;
      fun w =>
        Done None
          (with_srv w {| stored_value := []; stored_version := 0;
                         srv_index := srv_index (srv w) + 1;
                         srv_streams := [] |})
  end.

Definition session : @Session World unit Stream :=
  {| value.DoCommand := DoCommand; value.DoQuery := DoQuery;
     value.DoCommandStream := DoCommandStream;
     session_Close := Close; session_Delete := Delete |}.

(** Modelled from the spec: the responses a command stream delivers, in
  response-id order; a gap closes the stream with [StreamGap].  At
  most [fuel] responses are taken. *)
Fixpoint deliver (fuel : nat) (s : Stream) (last : Z)
  : M World (list (@iface World) * option error) :=
  match fuel with
  | O => ret ([], None)
  | S fuel' =>
      '(rh, r, err) <- next s (source s) ;;
      match err with
      | Some e => ret ([], Some e)
      | None =>
          match rh with
          | None => panic "nil pointer dereference"
          | Some h =>
              if rs_ResponseID h =? last + 1 then
                '(rs, e) <- deliver fuel' s (last + 1) ;; ret (r :: rs, e)
              else ret ([], Some StreamGap)
          end
      end
  end.

(** What the consumer of [ch] has observed once the stream delivered all
  it had and the goroutine of [Watch] forwarded it. *)
Definition observe (fuel : nat) (g : @goroutine Stream nat)
  : M World (option (list Event)) :=
  match g with
  | forwarder (Some stream) _ =>
      '(events, _) <- deliver fuel stream 0 ;; ret (forward events)
  | forwarder None _ => ret (Some [])
  end.

(** A value primitive on one partition, just opened. *)
Definition fresh : World :=
  {| sess := {| session_id := 1; last_request_id := 0; last_index := 0;
                sstate := Open |};
     srv := {| stored_value := []; stored_version := 0; srv_index := 0;
               srv_streams := [] |} |}.

Definition the_value : @value.value World unit Stream :=
  {| name := {| pn_Namespace := "default"; pn_Name := "test" |};
     value.session := Some session |}.

Definition the_Set := value_Set NewValueServiceClient the_value.
Definition the_Get := value_Get NewValueServiceClient the_value.
Definition the_Watch := value_Watch (chan := nat) NewValueServiceClient the_value.

(** Seed scenario 3: watch the value, set it three times, and let the
  consumer read what the stream delivered. *)
Definition watch_three (v1 v2 v3 : bytes) (fuel : nat)
  : M World (option error * option (list Event)) :=
  '(err, started) <- the_Watch 0%nat ;;
  _ <- the_Set v1 [] ;;
  _ <- the_Set v2 [] ;;
  _ <- the_Set v3 [] ;;
  match started with
  | g :: _ => seen <- observe fuel g ;; ret (err, seen)
  | [] => ret (err, None)
  end.

End ref.

(* ================================================================== *)
(** ** In-memory partitions of a Set, and a stub value service          *)
(* ================================================================== *)

Module mem.

(** The elements held by each partition. *)
Definition World : Type := list (list string).

Definition elems (i : nat) (w : World) : list string := nth i w [].

Fixpoint put (i : nat) (xs : list string) (w : World) : World :=
  match i, w with
  | O, _ :: rest => xs :: rest
  | O, [] => [xs]
  | S i', ys :: rest => ys :: put i' xs rest
  | S i', [] => [] :: put i' xs []
  end.

Definition mem (v : string) (xs : list string) : bool :=
  existsb (String.eqb v) xs.

Definition drop (v : string) (xs : list string) : list string :=
  filter (fun x => negb (String.eqb v x)) xs.

(** The partition of index [i], answering from the store. *)
Definition partition (i : nat) : @set.Set_ World nat :=
  {| set.Add := fun v w =>
       if mem v (elems i w) then (false, None, w)
       else (true, None, put i (v :: elems i w) w);
     set.Remove := fun v w =>
       if mem v (elems i w) then (true, None, put i (drop v (elems i w)) w)
       else (false, None, w);
     set.Contains := fun v w => (mem v (elems i w), None, w);
     set.Size := fun w => (len (elems i w), None, w);
     set.Clear := fun w => (None, put i [] w);
     set.Listen := fun _ w => (None, w);
     set.Close := fun w => (None, w);
     set.Delete := fun w => (None, put i [] w) |}.

(** A partition that cannot be reached. *)
Definition unreachable : @set.Set_ World nat :=
  let e := Some (TransportError "connection refused") in
  {| set.Add := fun _ w => (false, e, w);
     set.Remove := fun _ w => (false, e, w);
     set.Contains := fun _ w => (false, e, w);
     set.Size := fun w => (0, e, w);
     set.Clear := fun w => (e, w);
     set.Listen := fun _ w => (e, w);
     set.Close := fun w => (e, w);
     set.Delete := fun w => (e, w) |}.

(** Connections are numbered; connection 9 is refused. *)
Definition newPartition (conn : nat) (namespace name : string)
    (opts : list unit) : Call World (option (@set.Set_ World nat) * option error) :=
  fun w =>
    if Nat.eqb conn 9
    then (None, Some (TransportError "connection refused"), w)
    else (Some (partition conn), None, w).

(** FNV-1a on 32 bits, a non-cryptographic hash of the key. *)
Definition fnv32a (key : string) : Z :=
  fold_left
    (fun h c => wrap_uint32 (Z.lxor h (Z.of_N (N_of_ascii c)) * 16777619))
    (list_ascii_of_string key) 2166136261.

Definition three : @set.set World nat :=
  {| set.Namespace := "default"; set.Name := "test";
     set.partitions := [partition 0; partition 1; partition 2] |}.

Definition none : @set.set World nat :=
  {| set.Namespace := "default"; set.Name := "test";
     set.partitions := [] |}.

Definition one_down : @set.set World nat :=
  {| set.Namespace := "default"; set.Name := "test";
     set.partitions := [partition 0; unreachable; partition 2] |}.

End mem.

Module stub.
Import value.

(** A value service that refuses every write, and a session that hands
  the response of the command through. *)
Definition refuse (rq : SetRequest) : Call unit (SetResponse * option error) :=
  fun w =>
    ({| SetResponse_Header :=
          {| rs_SessionID := 0; rs_Index := 0; rs_StreamID := 0;
             rs_ResponseID := 0 |};
        SetResponse_Version := 0; Succeeded := false |}, None, w).

Definition service (conn : unit) : @ValueServiceClient unit :=
  {| rpc_Set := refuse;
     rpc_Get := fun _ w =>
       ({| GetResponse_Header :=
             {| rs_SessionID := 0; rs_Index := 0; rs_StreamID := 0;
                rs_ResponseID := 0 |};
           GetResponse_Value := []; GetResponse_Version := 0 |}, None, w);
     rpc_Events := fun _ w => (None, Some (TransportError "unavailable"), w) |}.

Definition header0 : RequestHeader :=
  {| rq_SessionID := 0; rq_RequestID := 0; rq_Index := 0 |}.

Definition through (fn : @request_fn unit unit)
  : M unit (@iface unit * option error) :=
  '(_, r, err) <- fn tt header0 ;; ret (r, err).

Definition session : @Session unit unit unit :=
  {| DoCommand := through; DoQuery := through;
     DoCommandStream := fun _ _ => ret (None, Some (TransportError "unavailable"));
     session_Close := ret None; session_Delete := ret None |}.

Definition the_value : @value.value unit unit unit :=
  {| name := {| pn_Namespace := "default"; pn_Name := "test" |};
     value.session := Some session |}.

End stub.

(* ================================================================== *)
(** ** Package counter: the session handler                             *)
(* ================================================================== *)

Module counter.

(** The messages of [atomix/counter] that the handler builds and reads;
    a header is a pointer and may be nil. *)
Record CreateRequest : Type := {
  CreateRequest_Header : option value.RequestHeader
}.

Record CreateResponse : Type := {
  CreateResponse_Header : option value.ResponseHeader
}.

Record CloseRequest : Type := {
  CloseRequest_Header : option value.RequestHeader;
  CloseRequest_Delete : bool
}.

Record CloseResponse : Type := {
  CloseResponse_Header : option value.ResponseHeader
}.

Section Handler.
Context {W : Type}.

(** [pb.CounterServiceClient], through the calls the handler makes. *)
Record CounterServiceClient : Type := {
  pb_Create : CreateRequest -> Call W (CreateResponse * option error);
  pb_Close : CloseRequest -> Call W (CloseResponse * option error)
}.

(** [*session.Session], through the methods the handler calls. *)
Record Session : Type := {
  GetHeader : Call W (option value.RequestHeader);
  UpdateHeader : option value.ResponseHeader -> Call W unit
}.

(** [type SessionHandler struct] *)
Record SessionHandler : Type := {
  client : CounterServiceClient
}.

Definition Create (m : SessionHandler) (s : Session) : M W (option error) :=
  header <- call (GetHeader s) ;;
  let request := {| CreateRequest_Header := header |} in
  '(response, err) <- call (pb_Create (client m) request) ;;
  match err with
  | Some e => ret (Some e)
  | None =>
      _ <- call (UpdateHeader s (CreateResponse_Header response)) ;;
      ret None
  end.

Definition KeepAlive (m : SessionHandler) (s : Session) : M W (option error) :=
  ret None.

Definition Close (m : SessionHandler) (s : Session) : M W (option error) :=
  header <- call (GetHeader s) ;;
  let request :=
    {| CloseRequest_Header := header; CloseRequest_Delete := false |} in
  '(_, err) <- call (pb_Close (client m) request) ;;
  ret err.

Definition Delete (m : SessionHandler) (s : Session) : M W (option error) :=
  header <- call (GetHeader s) ;;
  let request :=
    {| CloseRequest_Header := header; CloseRequest_Delete := true |} in
  '(_, err) <- call (pb_Close (client m) request) ;;
  ret err.

End Handler.

Arguments Create {W} m s _.
Arguments KeepAlive {W} m s _.
Arguments Close {W} m s _.
Arguments Delete {W} m s _.

End counter.

(** A counter service that records the requests it receives, and a
    session that keeps the header of the last response. *)
Module recorder.

Inductive request : Type :=
  | created (rq : counter.CreateRequest)
  | closed (rq : counter.CloseRequest).

Record World : Type := {
  header : option value.RequestHeader;
  received : list request
}.

Definition header_of (h : option value.ResponseHeader)
  : option value.RequestHeader :=
  match h with
  | Some h =>
      Some {| value.rq_SessionID := value.rs_SessionID h;
              value.rq_RequestID := 0;
              value.rq_Index := value.rs_Index h |}
  | None => None
  end.

Definition session : @counter.Session World :=
  {| counter.GetHeader := fun w => (header w, w);
     counter.UpdateHeader := fun h w =>
       (tt, {| header := header_of h; received := received w |}) |}.

Definition assigned : value.ResponseHeader :=
  {| value.rs_SessionID := 7; value.rs_Index := 1;
     value.rs_StreamID := 0; value.rs_ResponseID := 0 |}.

(** The service answers unless [down]. *)
Definition service (down : bool) : @counter.CounterServiceClient World :=
  let err := if down then Some (TransportError "unavailable") else None in
  {| counter.pb_Create := fun rq w =>
       ({| counter.CreateResponse_Header := Some assigned |}, err,
        {| header := header w; received := received w ++ [created rq] |});
     counter.pb_Close := fun rq w =>
       ({| counter.CloseResponse_Header := Some assigned |}, err,
        {| header := header w; received := received w ++ [closed rq] |}) |}.

Definition handler (down : bool) : @counter.SessionHandler World :=
  {| counter.client := service down |}.

Definition start : World := {| header := None; received := [] |}.

End recorder.

(** A session that answers every call with nil and no error. *)
Module careless.

Definition session : @value.Session unit unit unit :=
  {| value.DoCommand := fun _ => ret (value.inil, None);
     value.DoQuery := fun _ => ret (value.inil, None);
     value.DoCommandStream := fun _ _ => ret (None, None);
     value.session_Close := ret None;
     value.session_Delete := ret None |}.

Definition the_value : @value.value unit unit unit :=
  {| value.name := {| value.pn_Namespace := "default";
                      value.pn_Name := "test" |};
     value.session := Some session |}.

End careless.

(* ================================================================== *)
(** ** Vocabulary of the statements                                     *)
(* ================================================================== *)

(** The sum of a list of integers. *)
Definition sumZ (l : list Z) : Z := fold_right Z.add 0 l.

(** [sched] is a completion order of the invocations 0 .. n-1. *)
Definition schedule (n : nat) (sched : list nat) : Prop :=
  Permutation sched (seq 0 n).

(** In the run of the invocations of [f] in the order [sched] from the
  world [w], the first invocation that returns an error returns [e] and
  leaves the world [w']. *)
Inductive first_error {W A : Type} (f : Z -> M W (A * option error))
  : list nat -> W -> error -> W -> Prop :=
  | first_error_here i rest w r e w' :
    f (Z.of_nat i) w = Done (r, Some e) w' ->
    first_error f (i :: rest) w e w'
  | first_error_later i rest w r w1 e w' :
    f (Z.of_nat i) w = Done (r, None) w1 ->
    first_error f rest w1 e w' ->
    first_error f (i :: rest) w e w'.

(** The invocation of an action by [util.IterAsync], seen as a fan-out
  invocation without result. *)
Definition action {W : Type} (f : Z -> M W (option error))
  : Z -> M W (unit * option error) :=
  fun i => e <- f i ;; ret (tt, e).

(** The event the consumer of [Watch] expects for an event response. *)
Definition updated (r : value.EventResponse) : value.Event :=
  {| value.Type_ := value.EventUpdated;
     value.Value := value.NewValue r;
     value.Version := value.NewVersion r |}.

(** A session of the reference partition that can serve a read: it is
  open and has seen no index beyond the server's. *)
Definition consistent (w : ref.World) : Prop :=
  ref.sstate (ref.sess w) = ref.Open /\
  ref.last_index (ref.sess w) <= ref.srv_index (ref.srv w).

Section Pipes.
Context {W : Type}.

Local Abbreviation iEvent := (@value.iEventResponse W).

(** What holds of the pipe at every moment, when the stream carried the
  responses [rs] so far: the events sent are the updates of a prefix
  of [rs], the rest is pending, and the goroutine did not panic. *)
Definition in_order (p : @value.pipe W) (rs : list value.EventResponse)
  : Prop :=
  exists sent_ todo,
    rs = sent_ ++ todo /\
    value.sent p = map updated sent_ /\
    value.pending p = map iEvent todo /\
    value.state p <> value.Panicked /\
    (value.ch_closed p = true ->
       todo = [] /\ value.stream_closed p = true).

(** The pipe after the stream delivered [rs] and the goroutine has
  forwarded the first [k] of them. *)
Definition forwarded (rs : list value.EventResponse) (k : nat)
  : @value.pipe W :=
  {| value.produced := map iEvent rs;
     value.pending := map iEvent (skipn k rs);
     value.stream_closed := false;
     value.sent := map updated (firstn k rs);
     value.ch_closed := false;
     value.state := value.Running |}.

End Pipes.

(** The fields of a world of the reference partition. *)
Ltac world w :=
  let sid := fresh "sid" in
  let rid := fresh "rid" in
  let li := fresh "li" in
  let st := fresh "st" in
  let sv := fresh "sv" in
  let ver := fresh "ver" in
  let idx := fresh "idx" in
  let streams := fresh "streams" in
  destruct w as [[sid rid li st] [sv ver idx streams]].

(** The bytes of a string literal. *)
Definition txt (s : string) : bytes :=
  map Ascii.byte_of_ascii (list_ascii_of_string s).

(** The world after the calls of the method [m] on the partitions
    [parts], one call per index of [order], in that order. *)
Fixpoint run_each {W chan : Type}
    (m : @set.Set_ W chan -> Call W (option error))
    (parts : list (@set.Set_ W chan)) (order : list nat) (w : W) : W :=
  match order with
  | [] => w
  | i :: rest =>
      match nth_error parts i with
      | Some p => run_each m parts rest (snd (m p w))
      | None => run_each m parts rest w
      end
  end.

(** A run of a computation that returned, rather than panicked. *)
Definition returns {W A : Type} (c : M W A) (w : W) : Prop :=
  exists a w', c w = Done a w'.

(** The four broadcast methods of the Set, by name. *)
Inductive broadcast_op (chan : Type) : Type :=
  | op_Clear
  | op_Listen (ch : chan)
  | op_Close
  | op_Delete.

Arguments op_Clear {chan}.
Arguments op_Listen {chan} ch.
Arguments op_Close {chan}.
Arguments op_Delete {chan}.

(** The method of a partition that a broadcast method calls. *)
Definition partition_op {W chan : Type} (op : broadcast_op chan)
  : @set.Set_ W chan -> Call W (option error) :=
  match op with
  | op_Clear => set.Clear
  | op_Listen ch => fun p => set.Listen p ch
  | op_Close => set.Close
  | op_Delete => set.Delete
  end.

(** The broadcast method of the Set itself. *)
Definition set_op {W chan : Type} (op : broadcast_op chan)
    (sched : list nat) (s : @set.set W chan) : M W (option error) :=
  match op with
  | op_Clear => set.set_Clear sched s
  | op_Listen ch => set.set_Listen sched s ch
  | op_Close => set.set_Close sched s
  | op_Delete => set.set_Delete sched s
  end.

(** The query of [Get] and the stream request of [Watch], as the
    methods hand them to the session. *)
Definition Get_query {W ClientConn Stream : Type}
    (NewValueServiceClient : ClientConn -> @value.ValueServiceClient W)
    (v : @value.value W ClientConn Stream)
  : M W (@value.iface W * option error) :=
  sess <- value.the_session v ;;
  value.DoQuery sess (value.Get_fn NewValueServiceClient).

Definition Watch_stream {W ClientConn Stream : Type}
    (NewValueServiceClient : ClientConn -> @value.ValueServiceClient W)
    (v : @value.value W ClientConn Stream)
  : M W (option Stream * option error) :=
  sess <- value.the_session v ;;
  value.DoCommandStream sess (value.Watch_open NewValueServiceClient)
    value.Watch_recv.

(* ================================================================== *)
(** ** Machine integers                                                 *)
(* ================================================================== *)

Lemma wrap_int_small (z : Z) : int_min <= z <= int_max -> wrap_int z = z.
Proof.
  unfold int_min, int_max, wrap_int. intros Hz.
  rewrite Z.mod_small; lia.
Qed.

Lemma wrap_int_add_l (a b : Z) : wrap_int (wrap_int a + b) = wrap_int (a + b).
Proof.
  unfold wrap_int.
  replace ((a + 2 ^ 63) mod 2 ^ 64 - 2 ^ 63 + b + 2 ^ 63)
    with ((a + 2 ^ 63) mod 2 ^ 64 + b) by lia.
  rewrite Zplus_mod_idemp_l.
  replace (a + 2 ^ 63 + b) with (a + b + 2 ^ 63) by lia.
  reflexivity.
Qed.

Lemma fold_int_add (l : list Z) (a : Z) :
  fold_left int_add l (wrap_int a) = wrap_int (a + sumZ l).
Proof.
  revert a. induction l as [|x l IH]; intros a; simpl.
  - now rewrite Z.add_0_r.
  - unfold int_add at 2. rewrite wrap_int_add_l, IH. f_equal. lia.
Qed.

Lemma fold_int_add_0 (l : list Z) :
  fold_left int_add l 0 = wrap_int (sumZ l).
Proof.
  exact (fold_int_add l 0).
Qed.

Lemma sumZ_perm (l l' : list Z) : Permutation l l' -> sumZ l = sumZ l'.
Proof.
  induction 1; simpl; lia.
Qed.

(* ================================================================== *)
(** ** Slices and schedules                                             *)
(* ================================================================== *)

Section Slices.
Context {W A : Type}.

Lemma index_nat (xs : list A) (i : nat) (x : A) (w : W) :
  nth_error xs i = Some x -> index xs (Z.of_nat i) w = Done x w.
Proof.
  intros Hx. unfold index, len.
  assert (Hlt : (i < List.length xs)%nat)
    by (apply nth_error_Some; congruence).
  replace (Z.of_nat i <? 0) with false by (symmetry; apply Z.ltb_ge; lia).
  replace (Z.of_nat (List.length xs) <=? Z.of_nat i) with false
    by (symmetry; apply Z.leb_gt; lia).
  simpl. now rewrite Nat2Z.id, Hx.
Qed.

Lemma index_in_range (xs : list A) (i : Z) (w : W) :
  0 <= i < len xs ->
  exists x, nth_error xs (Z.to_nat i) = Some x /\ index xs i w = Done x w.
Proof.
  intros Hi. unfold len in Hi.
  destruct (nth_error xs (Z.to_nat i)) as [x|] eqn:Hx.
  - exists x. split; [reflexivity|].
    rewrite <- (Z2Nat.id i) by lia. now apply index_nat.
  - apply nth_error_None in Hx. lia.
Qed.

Lemma schedule_in (n : nat) (sched : list nat) (i : nat) :
  schedule n sched -> (In i sched <-> (i < n)%nat).
Proof.
  intros Hs. split; intros Hi.
  - apply (Permutation_in _ Hs) in Hi. apply in_seq in Hi. lia.
  - apply (Permutation_in _ (Permutation_sym Hs)). apply in_seq. lia.
Qed.

Lemma schedule_nil (sched : list nat) : schedule 0 sched -> sched = [].
Proof.
  intros Hs. apply Permutation_sym in Hs. now apply Permutation_nil in Hs.
Qed.
End Slices.

Lemma invocations_schedule (n : nat) (sched : list nat) :
  schedule n sched -> util.invocations (Z.of_nat n) sched = sched.
Proof.
  intros Hs. unfold util.invocations.
  assert (Hall : forall i, In i sched -> (i < n)%nat)
    by (intros i; apply (schedule_in n sched i Hs)).
  clear Hs. induction sched as [|i rest IH]; simpl; [reflexivity|].
  replace (Z.of_nat i <? Z.of_nat n) with true
    by (symmetry; apply Z.ltb_lt; specialize (Hall i (or_introl eq_refl)); lia).
  f_equal. apply IH. intros j Hj. apply Hall. now right.
Qed.

Lemma invocations_none (sched : list nat) : util.invocations 0 sched = [].
Proof.
  unfold util.invocations. induction sched as [|i rest IH]; simpl.
  - reflexivity.
  - replace (Z.of_nat i <? 0) with false by (symmetry; apply Z.ltb_ge; lia).
    exact IH.
Qed.

Lemma schedule_201 : schedule 3 [2; 0; 1]%nat.
Proof.
  exact (perm_trans (perm_swap 0%nat 2%nat [1%nat])
                    (perm_skip 0%nat (perm_swap 1%nat 2%nat []))).
Qed.

Lemma map_nth_seq (l : list Z) :
  map (fun i => nth i l 0) (seq 0 (List.length l)) = l.
Proof.
  apply (nth_ext _ _ 0 0).
  - now rewrite length_map, length_seq.
  - intros n Hn. rewrite length_map, length_seq in Hn.
    rewrite (nth_indep _ 0 (nth 0 l 0)) by (now rewrite length_map, length_seq).
    rewrite (map_nth (fun i => nth i l 0)), seq_nth by assumption.
    reflexivity.
Qed.

(* ================================================================== *)
(** ** Runs of the fan-out                                              *)
(* ================================================================== *)

Section Gather.
Context {W A : Type}.
Variable f : Z -> M W (A * option error).

(** All invocations succeed, under an invariant [I] of the world. *)
Lemma gather_all_ok (I : W -> Prop) (g : nat -> A) (sched : list nat) :
  (forall i w, In i sched -> I w ->
     exists w', f (Z.of_nat i) w = Done (g i, None) w' /\ I w') ->
  forall w, I w -> exists w',
    util.gather f sched w = Done (map (fun i => (i, g i)) sched, None) w' /\
    I w'.
Proof.
  induction sched as [|i rest IH]; intros Hok w Hw.
  - exists w. split; [reflexivity | assumption].
  - destruct (Hok i w (or_introl eq_refl) Hw) as (w1 & H1 & Hw1).
    destruct (IH (fun j w0 Hj => Hok j w0 (or_intror Hj)) w1 Hw1)
      as (w2 & H2 & Hw2).
    exists w2. split; [|assumption].
    cbn [util.gather map]. unfold bind. rewrite H1.
    now rewrite H2.
Qed.

Lemma gather_first_error (sched : list nat) (w : W) (e : error) (w' : W) :
  first_error f sched w e w' ->
  util.gather f sched w = Done ([], Some e) w'.
Proof.
  induction 1 as [i rest w r e w' H1 | i rest w r w1 e w' H1 _ IH];
    cbn [util.gather]; unfold bind; rewrite H1.
  - reflexivity.
  - now rewrite IH.
Qed.

(** If no invocation panics and the invocation of index [k] fails
  whenever it runs, some invocation is the first to fail. *)
Lemma some_first_error (sched : list nat) (k : nat) :
  (forall i w, In i sched ->
     exists r err w', f (Z.of_nat i) w = Done (r, err) w') ->
  In k sched ->
  (forall w r w', f (Z.of_nat k) w <> Done (r, None) w') ->
  forall w, exists e w', first_error f sched w e w'.
Proof.
  induction sched as [|i rest IH]; intros Hrun Hk Hfail w.
  - destruct Hk.
  - destruct (Hrun i w (or_introl eq_refl)) as (r & [e|] & w1 & H1).
    + exists e, w1. now apply first_error_here with r.
    + destruct Hk as [-> | Hk]; [now elim (Hfail w r w1)|].
      destruct (IH (fun j w0 Hj => Hrun j w0 (or_intror Hj)) Hk Hfail w1)
        as (e & w' & He).
      exists e, w'. now apply first_error_later with r w1.
Qed.
End Gather.

(* ================================================================== *)
(** ** The partitioner                                                  *)
(* ================================================================== *)

Lemma GetPartitionIndex_range (hash : string -> Z) (k : string) (N : Z) :
  1 <= N ->
  util.GetPartitionIndex hash k N = (hash k mod N, None) /\
  0 <= hash k mod N < N.
Proof.
  intros HN. unfold util.GetPartitionIndex.
  replace (N =? 0) with false by (symmetry; apply Z.eqb_neq; lia).
  split; [reflexivity|]. apply Z.mod_pos_bound. lia.
Qed.

Lemma getPartition_in_range {W chan : Type} (hash : string -> Z)
    (s : @set.set W chan) (k : string) :
  1 <= len (set.partitions s) ->
  exists p,
    nth_error (set.partitions s)
      (Z.to_nat (hash k mod len (set.partitions s))) = Some p /\
    forall w, set.getPartition hash s k w = Done (Some p, None) w.
Proof.
  intros HN.
  destruct (GetPartitionIndex_range hash k _ HN) as [Hi Hr].
  pose proof Hr as Hr'. unfold len in Hr'.
  destruct (nth_error (set.partitions s)
              (Z.to_nat (hash k mod len (set.partitions s)))) as [p|] eqn:Hp.
  - exists p. split; [reflexivity|]. intros w.
    destruct (index_in_range (set.partitions s) _ w Hr) as (p' & Hp' & Hx).
    unfold set.getPartition. rewrite Hi. unfold bind. rewrite Hx.
    unfold ret. congruence.
  - apply nth_error_None in Hp. unfold len in Hp. lia.
Qed.

(** C3: for every key and every partition count N >= 1 the partitioner
  succeeds with an index in [0, N); the same arguments always give the
  same index; and the index is a valid position in every slice of N
  partitions, as [set.getPartition] and [value.New] use it. *)
Theorem partitioner_in_range :
  forall (hash : string -> Z) (k : string) (N : Z),
    1 <= N ->
    exists i,
      util.GetPartitionIndex hash k N = (i, None) /\
      0 <= i < N /\
      (forall k' N', k' = k -> N' = N ->
         util.GetPartitionIndex hash k' N' = (i, None)) /\
      (forall (W chan : Type) (s : @set.set W chan) (w : W),
         len (set.partitions s) = N ->
         exists p,
           nth_error (set.partitions s) (Z.to_nat i) = Some p /\
           set.getPartition hash s k w = Done (Some p, None) w) /\
      (forall (W ClientConn Stream Address SessionOption : Type)
              (session_New : value.PrimitiveName -> Address ->
                 list SessionOption ->
                 M W (option (@value.Session W ClientConn Stream) * option error))
              (name : value.PrimitiveName) (partitions : list Address)
              (opts : list SessionOption) (w : W),
         value.pn_Name name = k -> len partitions = N ->
         exists address,
           nth_error partitions (Z.to_nat i) = Some address /\
           value.New session_New hash name partitions opts w =
           value.newValue session_New name address opts w).
Proof.
  intros hash k N HN.
  destruct (GetPartitionIndex_range hash k N HN) as [Hi Hr].
  exists (hash k mod N). repeat split; try assumption; try apply Hr.
  - intros k' N' -> ->. exact Hi.
  - intros W chan s w Hlen. subst N.
    destruct (getPartition_in_range hash s k HN) as (p & Hp & Hg).
    exists p. split; [exact Hp | apply Hg].
  - intros W CC St Ad SO sn name parts opts w Hk Hlen.
    destruct (index_in_range parts (hash k mod N) w) as (a & Ha & Hx).
    { now rewrite Hlen. }
    exists a. split; [exact Ha|].
    unfold value.New. rewrite Hk, Hlen, Hi. unfold bind. now rewrite Hx.
Qed.

Lemma partitioner_in_range_witness :
  exists i,
    util.GetPartitionIndex mem.fnv32a "y" 3 = (i, None) /\ 0 <= i < 3.
Proof.
  destruct (partitioner_in_range mem.fnv32a "y" 3 ltac:(lia))
    as (i & Hi & Hr & _).
  exists i. split; assumption.
Defined.

(* ================================================================== *)
(** ** Key-routed operations of the sharded Set                         *)
(* ================================================================== *)

(** C2: on a Set over N >= 1 partitions, [Add], [Remove] and [Contains] of
  a value are the call of the same method on the partition at the index
  the partitioner gives for the value: same result, same effect on the
  partitions, no other call. *)
Theorem set_key_routed :
  forall (W chan : Type) (hash : string -> Z) (s : @set.set W chan)
         (v : string),
    1 <= len (set.partitions s) ->
    exists i p,
      util.GetPartitionIndex hash v (len (set.partitions s)) = (i, None) /\
      0 <= i < len (set.partitions s) /\
      nth_error (set.partitions s) (Z.to_nat i) = Some p /\
      (forall w, set.set_Add hash s v w = call (set.Add p v) w) /\
      (forall w, set.set_Remove hash s v w = call (set.Remove p v) w) /\
      (forall w, set.set_Contains hash s v w = call (set.Contains p v) w).
Proof.
  intros W chan hash s v HN.
  destruct (GetPartitionIndex_range hash v _ HN) as [Hi Hr].
  destruct (getPartition_in_range hash s v HN) as (p & Hp & Hg).
  exists (hash v mod len (set.partitions s)), p.
  repeat split; try assumption; try apply Hr;
    intros w;
    unfold set.set_Add, set.set_Remove, set.set_Contains, bind;
    rewrite Hg; reflexivity.
Qed.

Lemma set_key_routed_witness :
  set.set_Add mem.fnv32a mem.three "y" [] = Done (true, None) [[]; ["y"]].
Proof.
  destruct (set_key_routed mem.World nat mem.fnv32a mem.three "y")
    as (i & p & Hi & _ & Hp & Hadd & _).
  - vm_compute. discriminate.
  - rewrite Hadd. vm_compute in Hi. injection Hi as <-.
    vm_compute in Hp. injection Hp as <-. reflexivity.
Defined.

Lemma key_routed_empty {W chan : Type} (hash : string -> Z)
    (s : @set.set W chan) (v : string) (w : W) :
  set.partitions s = [] ->
  set.set_Add hash s v w = Done (false, Some NoPartitions) w /\
  set.set_Remove hash s v w = Done (false, Some NoPartitions) w /\
  set.set_Contains hash s v w = Done (false, Some NoPartitions) w.
Proof.
  intros Hs.
  unfold set.set_Add, set.set_Remove, set.set_Contains, set.getPartition.
  rewrite Hs. repeat split; reflexivity.
Qed.

(** C4: with no partitions the partitioner returns [NoPartitions], and
  [Add], [Remove] and [Contains] on a Set whose partition list is empty
  return false with that error, and call nothing. *)
Theorem no_partitions :
  forall (hash : string -> Z),
    (forall k, snd (util.GetPartitionIndex hash k 0) = Some NoPartitions) /\
    (forall (W chan : Type) (s : @set.set W chan) (v : string) (w : W),
       set.partitions s = [] ->
       set.set_Add hash s v w = Done (false, Some NoPartitions) w /\
       set.set_Remove hash s v w = Done (false, Some NoPartitions) w /\
       set.set_Contains hash s v w = Done (false, Some NoPartitions) w).
Proof.
  intros hash. split.
  - reflexivity.
  - intros W chan s v w Hs. now apply key_routed_empty.
Qed.

Lemma no_partitions_witness :
  set.set_Add mem.fnv32a mem.none "x" [] = Done (false, Some NoPartitions) [].
Proof.
  apply (proj2 (no_partitions mem.fnv32a) mem.World nat mem.none "x" []).
  reflexivity.
Defined.

(* ================================================================== *)
(** ** Fan-out operations of the sharded Set                            *)
(* ================================================================== *)

Section SetFanOut.
Context {W chan : Type}.

Lemma Size_fn_at (s : @set.set W chan) (i : nat) (p : set.Set_ chan) (w : W) :
  nth_error (set.partitions s) i = Some p ->
  set.Size_fn s (Z.of_nat i) w =
  Done (set.iint (fst (fst (set.Size p w))), snd (fst (set.Size p w)))
       (snd (set.Size p w)).
Proof.
  intros Hp. unfold set.Size_fn, bind, call.
  rewrite (index_nat _ _ _ _ Hp).
  destruct (set.Size p w) as [[n e] w']. reflexivity.
Qed.

Lemma broadcast_fn_at (s : @set.set W chan)
    (m : set.Set_ chan -> Call W (option error)) (i : nat)
    (p : set.Set_ chan) (w : W) :
  nth_error (set.partitions s) i = Some p ->
  set.broadcast_fn s m (Z.of_nat i) w = Done (fst (m p w)) (snd (m p w)).
Proof.
  intros Hp. unfold set.broadcast_fn, bind, call.
  rewrite (index_nat _ _ _ _ Hp).
  destruct (m p w) as [e w']. reflexivity.
Qed.

Lemma sum_results_ints (zs : list Z) (size : Z) (w : W) :
  set.sum_results (map (@set.iint W chan) zs) size w =
  Done (fold_left int_add zs size) w.
Proof.
  revert size. induction zs as [|z zs IH]; intros size; simpl.
  - reflexivity.
  - apply IH.
Qed.

Lemma Forall2_nth_error {X Y : Type} (P : X -> Y -> Prop) (d : Y)
    (xs : list X) (ys : list Y) :
  Forall2 P xs ys ->
  forall i x, nth_error xs i = Some x -> P x (nth i ys d).
Proof.
  induction 1 as [|x0 y0 xs ys H0 _ IH]; intros [|i] x Hx;
    simpl in *; try discriminate.
  - now injection Hx as <-.
  - now apply IH.
Qed.
End SetFanOut.

(** C1: on a Set over N partitions whose [Size] calls return the sizes
  [sizes] without error (in every world the run can be in, described by
  the invariant [I]), [Size] returns their sum and no error, in whatever
  order the calls complete.  The sum is the [int] sum: it is the integer
  sum of the sizes whenever that fits an [int]. *)
Theorem set_Size_sum :
  forall (W chan : Type) (I : W -> Prop) (s : @set.set W chan)
         (sizes : list Z) (sched : list nat) (w : W),
    schedule (List.length (set.partitions s)) sched ->
    I w ->
    Forall2 (fun p n => forall w0, I w0 ->
               fst (set.Size p w0) = (n, None) /\ I (snd (set.Size p w0)))
            (set.partitions s) sizes ->
    exists n w',
      set.set_Size sched s w = Done (n, None) w' /\ I w' /\
      n = wrap_int (sumZ sizes) /\
      (int_min <= sumZ sizes <= int_max -> n = sumZ sizes).
Proof.
  intros W chan I s sizes sched w Hs Hw Hsz.
  destruct (gather_all_ok (set.Size_fn s) I
              (fun i => set.iint (nth i sizes 0)) sched) with (w := w)
    as (w' & Hg & Hw'); [|assumption|].
  { intros i w0 Hi Hw0. apply (schedule_in _ _ _ Hs) in Hi.
    destruct (nth_error (set.partitions s) i) as [p|] eqn:Hp.
    - exists (snd (set.Size p w0)).
      rewrite (Size_fn_at _ _ _ _ Hp).
      destruct (Forall2_nth_error _ 0 _ _ Hsz _ _ Hp w0 Hw0) as [-> Hi'].
      split; [reflexivity | assumption].
    - apply nth_error_None in Hp. lia. }
  exists (wrap_int (sumZ sizes)), w'. split; [|split; [assumption|split]].
  - unfold set.set_Size, util.ExecuteAsync, bind, len.
    rewrite (invocations_schedule _ _ Hs), Hg. unfold ret.
    rewrite map_map. cbn [snd].
    rewrite <- (map_map (fun i => nth i sizes 0) (@set.iint W chan)).
    rewrite sum_results_ints.
    rewrite fold_int_add_0.
    rewrite (sumZ_perm _ _ (Permutation_map _ Hs)).
    rewrite (Forall2_length Hsz), map_nth_seq. reflexivity.
  - reflexivity.
  - apply wrap_int_small.
Qed.

Lemma set_Size_sum_witness :
  set.set_Size [2; 0; 1]%nat mem.three [["a"; "b"]; ["c"]; []]
  = Done (3, None) [["a"; "b"]; ["c"]; []].
Proof.
  destruct (set_Size_sum mem.World nat (eq [["a"; "b"]; ["c"]; []])
              mem.three [2; 1; 0] [2; 0; 1]%nat [["a"; "b"]; ["c"]; []])
    as (n & w' & Hrun & <- & _ & Hn).
  - apply schedule_201.
  - reflexivity.
  - apply Forall2_cons;
      [|apply Forall2_cons; [|apply Forall2_cons; [|apply Forall2_nil]]];
      intros w0 <-; split; reflexivity.
  - rewrite Hrun, Hn; [reflexivity|].
    vm_compute. split; discriminate.
Defined.

Section Construction.
Context {W ClientConn SessionOption chan : Type}.
Variable newPartition :
  ClientConn -> string -> string -> list SessionOption ->
  Call W (option (@set.Set_ W chan) * option error).

Lemma New_fn_at (namespace name : string) (conns : list ClientConn)
    (opts : list SessionOption) (i : nat) (conn : ClientConn) (w : W) :
  nth_error conns i = Some conn ->
  set.New_fn newPartition namespace name conns opts (Z.of_nat i) w =
  Done (set.of_Set (fst (fst (newPartition conn namespace name opts w))),
        snd (fst (newPartition conn namespace name opts w)))
       (snd (newPartition conn namespace name opts w)).
Proof.
  intros Hc. unfold set.New_fn, bind, call.
  rewrite (index_nat _ _ _ _ Hc).
  destruct (newPartition conn namespace name opts w) as [[p e] w'].
  reflexivity.
Qed.
End Construction.

(** C8: the three fan-out utilities return the first error of the run and
  no result list.  [New] returns that error and no Set when the
  construction of some partition fails, and [Size] returns 0 and that
  error when the [Size] call of some partition fails, in whatever order
  the invocations complete. *)
Theorem fan_out_fail_fast :
  (forall (W A : Type) (f : Z -> M W (A * option error)) (nil_ : A)
          (sched : list nat) (n : Z) (w : W) (e : error) (w' : W),
     first_error f (util.invocations n sched) w e w' ->
     util.ExecuteAsync sched n f w = Done ([], Some e) w' /\
     util.ExecuteOrderedAsync nil_ sched n f w = Done ([], Some e) w') /\
  (forall (W : Type) (f : Z -> M W (option error))
          (sched : list nat) (n : Z) (w : W) (e : error) (w' : W),
     first_error (action f) (util.invocations n sched) w e w' ->
     util.IterAsync sched n f w = Done (Some e) w') /\
  (forall (W ClientConn SessionOption chan : Type)
          (newPartition : ClientConn -> string -> string ->
             list SessionOption ->
             Call W (option (@set.Set_ W chan) * option error))
          (sched : list nat) (namespace name : string)
          (conns : list ClientConn) (opts : list SessionOption)
          (k : nat) (conn : ClientConn) (w : W),
     schedule (List.length conns) sched ->
     nth_error conns k = Some conn ->
     (forall w0, snd (fst (newPartition conn namespace name opts w0)) <> None) ->
     exists e w',
       first_error (set.New_fn newPartition namespace name conns opts)
                   sched w e w' /\
       set.New newPartition sched namespace name conns opts w =
       Done (None, Some e) w') /\
  (forall (W chan : Type) (s : @set.set W chan) (sched : list nat)
          (k : nat) (p : set.Set_ chan) (w : W),
     schedule (List.length (set.partitions s)) sched ->
     nth_error (set.partitions s) k = Some p ->
     (forall w0, snd (fst (set.Size p w0)) <> None) ->
     exists e w',
       first_error (set.Size_fn s) sched w e w' /\
       set.set_Size sched s w = Done (0, Some e) w').
Proof.
  split; [|split; [|split]].
  - intros W A f nil_ sched n w e w' He.
    apply gather_first_error in He.
    unfold util.ExecuteAsync, util.ExecuteOrderedAsync, bind.
    rewrite He. split; reflexivity.
  - intros W f sched n w e w' He.
    apply gather_first_error in He.
    unfold util.IterAsync. fold (action f).
    unfold bind at 1. rewrite He. reflexivity.
  - intros W CC SO chan newPartition sched ns name conns opts k conn w
           Hs Hk Hfail.
    destruct (some_first_error
                (set.New_fn newPartition ns name conns opts) sched k)
      with (w := w) as (e & w' & He).
    + intros i w0 Hi. apply (schedule_in _ _ _ Hs) in Hi.
      destruct (nth_error conns i) as [c|] eqn:Hc.
      * rewrite (New_fn_at _ _ _ _ _ _ _ _ Hc). eauto.
      * apply nth_error_None in Hc. lia.
    + apply (schedule_in _ _ _ Hs). apply nth_error_Some. congruence.
    + intros w0 r w1. rewrite (New_fn_at _ _ _ _ _ _ _ _ Hk).
      intros Heq. injection Heq as _ Herr _. now apply (Hfail w0).
    + exists e, w'. split; [exact He|].
      apply gather_first_error in He.
      unfold set.New, util.ExecuteOrderedAsync, bind, len.
      rewrite (invocations_schedule _ _ Hs), He. reflexivity.
  - intros W chan s sched k p w Hs Hk Hfail.
    destruct (some_first_error (set.Size_fn s) sched k)
      with (w := w) as (e & w' & He).
    + intros i w0 Hi. apply (schedule_in _ _ _ Hs) in Hi.
      destruct (nth_error (set.partitions s) i) as [q|] eqn:Hq.
      * rewrite (Size_fn_at _ _ _ _ Hq). eauto.
      * apply nth_error_None in Hq. lia.
    + apply (schedule_in _ _ _ Hs). apply nth_error_Some. congruence.
    + intros w0 r w1. rewrite (Size_fn_at _ _ _ _ Hk).
      intros Heq. injection Heq as _ Herr _. now apply (Hfail w0).
    + exists e, w'. split; [exact He|].
      apply gather_first_error in He.
      unfold set.set_Size, util.ExecuteAsync, bind, len.
      rewrite (invocations_schedule _ _ Hs), He. reflexivity.
Qed.

Lemma fan_out_fail_fast_witness :
  util.ExecuteAsync [2; 0; 1]%nat 3 (set.Size_fn mem.one_down) [] =
    Done ([], Some (TransportError "connection refused")) [] /\
  util.IterAsync [2; 0; 1]%nat 3
      (set.broadcast_fn mem.one_down set.Clear) [] =
    Done (Some (TransportError "connection refused")) [[]; []; []] /\
  (exists e w',
     set.New mem.newPartition [2; 0; 1]%nat "default" "test"
             [4; 9; 5]%nat [] [] = Done (None, Some e) w') /\
  (exists e w',
     set.set_Size [2; 0; 1]%nat mem.one_down [] = Done (0, Some e) w').
Proof.
  destruct fan_out_fail_fast as (HExec & HIter & HNew & HSize).
  split; [|split; [|split]].
  - apply (HExec mem.World _ (set.Size_fn mem.one_down) set.inil).
    repeat (eapply first_error_later; [reflexivity|]).
    eapply first_error_here. reflexivity.
  - apply HIter.
    repeat (eapply first_error_later; [reflexivity|]).
    eapply first_error_here. reflexivity.
  - destruct (HNew mem.World nat unit nat mem.newPartition [2; 0; 1]%nat
                "default" "test" [4; 9; 5]%nat [] 1%nat 9%nat [])
      as (e & w' & _ & Hrun).
    + apply schedule_201.
    + reflexivity.
    + intros w0. simpl. discriminate.
    + exists e, w'. exact Hrun.
  - destruct (HSize mem.World nat mem.one_down [2; 0; 1]%nat 1%nat
                mem.unreachable [])
      as (e & w' & _ & Hrun).
    + apply schedule_201.
    + reflexivity.
    + intros w0. simpl. discriminate.
    + exists e, w'. exact Hrun.
Defined.

(** C10: [New] on an empty list of connections returns a Set without
    partitions, and on such a Set, whatever the scheduler does, [Size]
    returns 0 and no error and [Clear], [Close] and [Delete] return no
    error, while [Add], [Remove] and [Contains] fail with
    [NoPartitions]; none of them calls anything. *)
Theorem zero_partitions_fan_out :
  (forall (W ClientConn SessionOption chan : Type)
          (newPartition : ClientConn -> string -> string ->
             list SessionOption ->
             Call W (option (@set.Set_ W chan) * option error))
          (sched : list nat) (namespace name : string)
          (opts : list SessionOption) (w : W),
     set.New newPartition sched namespace name [] opts w =
     Done (Some {| set.Namespace := namespace; set.Name := name;
                   set.partitions := [] |}, None) w) /\
  (forall (W chan : Type) (hash : string -> Z) (s : @set.set W chan)
          (sched : list nat) (v : string) (w : W),
     set.partitions s = [] ->
     set.set_Size sched s w = Done (0, None) w /\
     set.set_Clear sched s w = Done None w /\
     set.set_Close sched s w = Done None w /\
     set.set_Delete sched s w = Done None w /\
     set.set_Add hash s v w = Done (false, Some NoPartitions) w /\
     set.set_Remove hash s v w = Done (false, Some NoPartitions) w /\
     set.set_Contains hash s v w = Done (false, Some NoPartitions) w).
Proof.
  split.
  - intros W CC SO chan newPartition sched ns name opts w.
    unfold set.New, util.ExecuteOrderedAsync, bind, len. cbn [List.length].
    rewrite invocations_none. reflexivity.
  - intros W chan hash s sched v w Hp.
    split; [|split; [|split; [|split]]];
      try (unfold set.set_Size, set.set_Clear, set.set_Close, set.set_Delete,
             set.broadcast, util.ExecuteAsync, util.IterAsync, bind, len;
           rewrite Hp; cbn [List.length]; rewrite invocations_none;
           reflexivity).
    now apply key_routed_empty.
Qed.

Lemma zero_partitions_fan_out_witness :
  set.set_Size [1; 0]%nat mem.none [] = Done (0, None) [] /\
  set.set_Clear [1; 0]%nat mem.none [] = Done None [].
Proof.
  destruct zero_partitions_fan_out as [_ H].
  destruct (H mem.World nat mem.fnv32a mem.none [1; 0]%nat "x" [])
    as (HSize & HClear & _).
  - reflexivity.
  - split; assumption.
Defined.

(* ================================================================== *)
(** ** The atomic Value: Set and Get                                    *)
(* ================================================================== *)

Section ValueSet.
Context {W ClientConn Stream : Type}.
Variable NewValueServiceClient : ClientConn -> @value.ValueServiceClient W.
Variable v : @value.value W ClientConn Stream.

(** [Set] after its command returned a response. *)
Lemma value_Set_response (val : bytes) (opts : list value.SetOption)
    (w w' : W) (response : value.SetResponse) :
  value.Set_command NewValueServiceClient v val opts w =
    Done (value.iSetResponse response, None) w' ->
  value.value_Set NewValueServiceClient v val opts w =
  if value.Succeeded response
  then Done (value.SetResponse_Version response, None) w'
  else if 0 <? value.ExpectVersion
                 (value.apply_beforeSet opts value.empty_SetRequest)
       then Done (0, Some (errors_New "version mismatch")) w'
       else Done (0, Some (errors_New "value mismatch")) w'.
Proof.
  intros Hc. unfold value.value_Set, bind. rewrite Hc.
  destruct (value.Succeeded response); simpl; [reflexivity|].
  destruct (0 <? _); reflexivity.
Qed.

(** [Set] returns version 0 with every error. *)
Lemma value_Set_error_zero (val : bytes) (opts : list value.SetOption)
    (w w' : W) (n : Z) (e : error) :
  value.value_Set NewValueServiceClient v val opts w = Done (n, Some e) w' ->
  n = 0.
Proof.
  unfold value.value_Set, bind.
  destruct (value.Set_command NewValueServiceClient v val opts w)
    as [[r [e0|]] w1|msg]; unfold ret, panic; try congruence.
  destruct r as [|response| | |]; try congruence.
  destruct (value.Succeeded response); simpl; [congruence|].
  destruct (0 <? _); congruence.
Qed.
End ValueSet.

Lemma apply_beforeSet_IfVersion (evs : list Z) (rq : value.SetRequest) :
  value.apply_beforeSet (map value.IfVersion evs) rq =
  {| value.SetRequest_Header := value.SetRequest_Header rq;
     value.ExpectVersion :=
       fold_left (fun _ ev => ev) evs (value.ExpectVersion rq);
     value.SetRequest_Value := value.SetRequest_Value rq |}.
Proof.
  unfold value.apply_beforeSet. revert rq.
  induction evs as [|ev evs IH]; intros rq.
  - now destruct rq.
  - cbn [map fold_left]. rewrite IH. reflexivity.
Qed.

Lemma apply_afterSet_IfVersion (evs : list Z) (rs : value.SetResponse) :
  value.apply_afterSet (map value.IfVersion evs) rs = rs.
Proof.
  unfold value.apply_afterSet.
  induction evs as [|ev evs IH]; [reflexivity | exact IH].
Qed.

(** *** On the reference partition *)

Lemma ref_Get_stored (w : ref.World) :
  consistent w ->
  exists w',
    ref.the_Get w =
    Done (ref.stored_value (ref.srv w), ref.stored_version (ref.srv w), None) w'.
Proof.
  world w. intros [Hopen Hidx]. simpl in Hopen, Hidx. subst st.
  unfold ref.the_Get, value.value_Get, ref.the_value, ref.session, bind.
  cbn. unfold ref.DoQuery, bind, ref.usable. cbn.
  unfold ref.reconcile, bind. cbn.
  replace (idx <? li) with false by (symmetry; apply Z.ltb_ge; lia).
  cbn. eexists. reflexivity.
Qed.

(** A command [Set] that returned without error returned a response; the
  session can serve a read afterwards; a refused write left the stored
  value and version as they were, an accepted one stored the value under
  the version of the response. *)
Lemma ref_Set_command (w w' : ref.World) (val : bytes) (evs : list Z)
    (r : @value.iface ref.World) :
  value.Set_command ref.NewValueServiceClient ref.the_value val
                    (map value.IfVersion evs) w = Done (r, None) w' ->
  exists response,
    r = value.iSetResponse response /\
    consistent w' /\
    (value.Succeeded response = false ->
       ref.stored_value (ref.srv w') = ref.stored_value (ref.srv w) /\
       ref.stored_version (ref.srv w') = ref.stored_version (ref.srv w)) /\
    (value.Succeeded response = true ->
       ref.stored_value (ref.srv w') = val /\
       ref.stored_version (ref.srv w') = value.SetResponse_Version response).
Proof.
  world w.
  unfold value.Set_command, ref.the_value, ref.session. cbn.
  unfold ref.DoCommand, bind, ref.usable. cbn.
  destruct st; cbn; try discriminate.
  unfold value.Set_fn, bind, call, ref.NewValueServiceClient. cbn.
  rewrite apply_beforeSet_IfVersion. cbn.
  unfold ref.server_Set. cbn.
  destruct (_ && _); cbn; rewrite apply_afterSet_IfVersion; cbn;
    unfold ref.reconcile, bind; cbn;
    (destruct (idx + 1 <? li) eqn:Hlt; cbn; [discriminate|]);
    intros H; injection H as <- <-;
    eexists; (split; [reflexivity|]); cbn;
    (split; [split; [reflexivity | cbn; lia]|]);
    split; intros Hs; try discriminate; split; reflexivity.
Qed.

(** A conditional write whose expected version is not the stored one is
  refused: [Set] reports the version mismatch, and the stored value and
  version stay as they were. *)
Lemma ref_Set_refused (w : ref.World) (val : bytes) (ev : Z) :
  consistent w -> 0 < ev -> ev <> ref.stored_version (ref.srv w) ->
  exists w',
    ref.the_Set val [value.IfVersion ev] w =
      Done (0, Some (errors_New "version mismatch")) w' /\
    consistent w' /\
    ref.stored_value (ref.srv w') = ref.stored_value (ref.srv w) /\
    ref.stored_version (ref.srv w') = ref.stored_version (ref.srv w).
Proof.
  world w. intros [Hopen Hidx] Hev Hne. simpl in Hopen, Hidx, Hne. subst st.
  unfold ref.the_Set, value.value_Set, value.Set_command, ref.the_value,
    ref.session, bind.
  cbn. unfold ref.DoCommand, bind, ref.usable. cbn.
  unfold value.Set_fn, bind, call, ref.NewValueServiceClient. cbn.
  unfold ref.server_Set. cbn.
  replace (0 <? ev) with true by (symmetry; apply Z.ltb_lt; lia).
  replace (ev =? ver) with false by (symmetry; apply Z.eqb_neq; lia).
  cbn. unfold ref.reconcile, bind. cbn.
  replace (idx + 1 <? li) with false by (symmetry; apply Z.ltb_ge; lia).
  cbn. eexists. split; [reflexivity|].
  split; [split; cbn; [reflexivity | lia]|]. split; reflexivity.
Qed.

(** A successful [Set] on the reference partition stores the value under
  the version it returns. *)
Lemma ref_Set_stored (w w' : ref.World) (val : bytes) (evs : list Z) (n : Z) :
  ref.the_Set val (map value.IfVersion evs) w = Done (n, None) w' ->
  consistent w' /\
  ref.stored_value (ref.srv w') = val /\
  ref.stored_version (ref.srv w') = n.
Proof.
  unfold ref.the_Set, value.value_Set, bind.
  destruct (value.Set_command _ _ _ _ w) as [[r [e|]] w1|msg] eqn:Hc;
    unfold ret, panic; try discriminate.
  destruct (ref_Set_command _ _ _ _ _ Hc) as (response & -> & Hcons & _ & Hok).
  destruct (value.Succeeded response); cbn.
  - intros H. injection H as <- <-.
    destruct (Hok eq_refl) as [Hv Hn]. auto.
  - destruct (0 <? _); discriminate.
Qed.

(** C5: if the request built from the options carries an expected version
  above 0 and the response of the command reports that the write did not
  succeed, [Set] returns version 0 and the error "version mismatch"
  (whatever the session and the service are).  On the reference
  partition, a [Set] that expects a version other than the one the last
  successful [Set] returned fails in this way, and a [Get] afterwards
  returns the value and version of that last successful [Set]. *)
Theorem Set_version_mismatch :
  (forall (W ClientConn Stream : Type)
          (NewValueServiceClient : ClientConn -> @value.ValueServiceClient W)
          (v : @value.value W ClientConn Stream)
          (val : bytes) (opts : list value.SetOption)
          (w w' : W) (response : value.SetResponse),
     0 < value.ExpectVersion
           (value.apply_beforeSet opts value.empty_SetRequest) ->
     value.Set_command NewValueServiceClient v val opts w =
       Done (value.iSetResponse response, None) w' ->
     value.Succeeded response = false ->
     value.value_Set NewValueServiceClient v val opts w =
     Done (0, Some (errors_New "version mismatch")) w') /\
  (forall (w0 w1 : ref.World) (stored : bytes) (evs : list Z) (n : Z)
          (val : bytes) (ev : Z),
     ref.the_Set stored (map value.IfVersion evs) w0 = Done (n, None) w1 ->
     0 < ev -> ev <> n ->
     exists w2 w3,
       ref.the_Set val [value.IfVersion ev] w1 =
         Done (0, Some (errors_New "version mismatch")) w2 /\
       ref.the_Get w2 = Done (stored, n, None) w3).
Proof.
  split.
  - intros W CC St NVC v val opts w w' response Hev Hc Hs.
    rewrite (value_Set_response _ _ _ _ _ _ _ Hc), Hs.
    replace (0 <? _) with true by (symmetry; apply Z.ltb_lt; exact Hev).
    reflexivity.
  - intros w0 w1 stored evs n val ev Hset Hev Hne.
    destruct (ref_Set_stored _ _ _ _ _ Hset) as (Hcons & Hv & Hn).
    destruct (ref_Set_refused w1 val ev Hcons Hev) as (w2 & Hrun & Hcons2 & Hv2 & Hn2).
    { now rewrite Hn. }
    destruct (ref_Get_stored w2 Hcons2) as (w3 & Hget).
    exists w2, w3. split; [exact Hrun|].
    rewrite Hget, Hv2, Hn2, Hv, Hn. reflexivity.
Qed.

Lemma Set_version_mismatch_witness :
  (exists w',
     value.value_Set ref.NewValueServiceClient ref.the_value (txt "C")
       [value.IfVersion 5] ref.fresh =
     Done (0, Some (errors_New "version mismatch")) w') /\
  (exists w1 w2 w3,
     ref.the_Set (txt "B") [] ref.fresh = Done (1, None) w1 /\
     ref.the_Set (txt "C") [value.IfVersion 7] w1 =
       Done (0, Some (errors_New "version mismatch")) w2 /\
     ref.the_Get w2 = Done (txt "B", 1, None) w3).
Proof.
  destruct Set_version_mismatch as [Hany Href]. split.
  - eexists.
    eapply (Hany ref.World unit ref.Stream ref.NewValueServiceClient
              ref.the_value (txt "C") [value.IfVersion 5] ref.fresh).
    + reflexivity.
    + reflexivity.
    + reflexivity.
  - eexists.
    destruct (Href ref.fresh _ (txt "B") [] 1 (txt "C") 7 eq_refl)
      as (w2 & w3 & Hset & Hget).
    + reflexivity.
    + discriminate.
    + exists w2, w3. split; [reflexivity|]. split; assumption.
Defined.

(** C6: on the reference partition, if [Set] of a value succeeds and
  returns version n, the next [Get] of the same client returns that
  value and n. *)
Theorem Set_then_Get :
  forall (w w' : ref.World) (val : bytes) (evs : list Z) (n : Z),
    ref.the_Set val (map value.IfVersion evs) w = Done (n, None) w' ->
    exists w'', ref.the_Get w' = Done (val, n, None) w''.
Proof.
  intros w w' val evs n Hset.
  destruct (ref_Set_stored _ _ _ _ _ Hset) as (Hcons & Hv & Hn).
  destruct (ref_Get_stored w' Hcons) as (w'' & Hget).
  exists w''. rewrite Hget, Hv, Hn. reflexivity.
Qed.

Lemma Set_then_Get_witness :
  exists w' w'',
    ref.the_Set (txt "A") [] ref.fresh = Done (1, None) w' /\
    ref.the_Get w' = Done (txt "A", 1, None) w''.
Proof.
  eexists.
  destruct (Set_then_Get ref.fresh _ (txt "A") [] 1 eq_refl) as (w'' & Hget).
  exists w''. split; [reflexivity | exact Hget].
Defined.

(** C9: if the request built from the options carries no expected version
  and the response of the command reports that the write did not
  succeed, [Set] returns version 0 and the error "value mismatch", an
  [errors.New] value that is neither the version mismatch nor one of the
  error kinds of the runtime; and whenever [Set] returns an error it
  returns version 0. *)
Theorem Set_value_mismatch :
  (forall (W ClientConn Stream : Type)
          (NewValueServiceClient : ClientConn -> @value.ValueServiceClient W)
          (v : @value.value W ClientConn Stream)
          (val : bytes) (opts : list value.SetOption)
          (w w' : W) (response : value.SetResponse),
     value.ExpectVersion
       (value.apply_beforeSet opts value.empty_SetRequest) = 0 ->
     value.Set_command NewValueServiceClient v val opts w =
       Done (value.iSetResponse response, None) w' ->
     value.Succeeded response = false ->
     value.value_Set NewValueServiceClient v val opts w =
     Done (0, Some (errors_New "value mismatch")) w') /\
  (forall (W ClientConn Stream : Type)
          (NewValueServiceClient : ClientConn -> @value.ValueServiceClient W)
          (v : @value.value W ClientConn Stream)
          (val : bytes) (opts : list value.SetOption)
          (w w' : W) (n : Z) (e : error),
     value.value_Set NewValueServiceClient v val opts w = Done (n, Some e) w' ->
     n = 0) /\
  errors_New "value mismatch" <> errors_New "version mismatch" /\
  ~ In (errors_New "value mismatch")
       [NoPartitions; SessionOpenFailed; SessionExpired; SessionClosed;
        StreamGap; OutOfOrder].
Proof.
  split; [|split; [|split]].
  - intros W CC St NVC v val opts w w' response Hev Hc Hs.
    rewrite (value_Set_response _ _ _ _ _ _ _ Hc), Hs, Hev. reflexivity.
  - intros W CC St NVC v val opts w w' n e.
    apply value_Set_error_zero.
  - discriminate.
  - simpl. intros H. repeat (destruct H as [H|H]; [discriminate|]). exact H.
Qed.

Lemma Set_value_mismatch_witness :
  value.value_Set stub.service stub.the_value (txt "a") [] tt =
  Done (0, Some (errors_New "value mismatch")) tt.
Proof.
  destruct Set_value_mismatch as [Hany _].
  apply (Hany unit unit unit stub.service stub.the_value (txt "a") [] tt tt
           {| value.SetResponse_Header :=
                {| value.rs_SessionID := 0; value.rs_Index := 0;
                   value.rs_StreamID := 0; value.rs_ResponseID := 0 |};
              value.SetResponse_Version := 0;
              value.Succeeded := false |}).
  - reflexivity.
  - reflexivity.
  - reflexivity.
Defined.

(* ================================================================== *)
(** ** The atomic Value: Watch                                          *)
(* ================================================================== *)

Section Forwarding.
Context {W : Type}.

Local Abbreviation iEvent := (@value.iEventResponse W).

Lemma to_Event_updated (r : value.EventResponse) :
  value.to_Event (iEvent r) = Some (updated r).
Proof. reflexivity. Qed.


Lemma map_snoc_inv {X Y : Type} (g : X -> Y) (ys : list Y) (y : Y)
    (xs : list X) :
  ys ++ [y] = map g xs ->
  exists xs' x, xs = xs' ++ [x] /\ ys = map g xs' /\ y = g x.
Proof.
  intros H. symmetry in H. apply map_eq_app in H.
  destruct H as (xs' & l2 & -> & H1 & H2).
  destruct l2 as [|x [|? ?]]; simpl in H2; try discriminate.
  injection H2 as <-. exists xs', x. auto.
Qed.

Lemma step_in_order (p q : @value.pipe W) :
  value.step p q ->
  (forall rs, value.produced p = map iEvent rs -> in_order p rs) ->
  forall rs, value.produced q = map iEvent rs -> in_order q rs.
Proof.
  intros Hstep Hp rs Hq.
  destruct Hstep as [p x Hopen | p | p x rest ev Hrun Hpend Hev
                    | p x rest Hrun Hpend Hev | p Hrun Hpend Hclosed];
    cbn in Hq.
  - apply map_snoc_inv in Hq. destruct Hq as (rs' & r & -> & Hprod & ->).
    destruct (Hp rs' Hprod)
      as (done & todo & -> & Hsent & Hpending & Hst & Hch).
    exists done, (todo ++ [r]). cbn.
    split; [now rewrite app_assoc|].
    split; [assumption|].
    split; [now rewrite Hpending, map_app|].
    split; [assumption|].
    intros Hc. destruct (Hch Hc). congruence.
  - destruct (Hp rs Hq)
      as (done & todo & -> & Hsent & Hpending & Hst & Hch).
    exists done, todo. cbn.
    split; [reflexivity|]. split; [assumption|]. split; [assumption|].
    split; [assumption|].
    intros Hc. now destruct (Hch Hc).
  - destruct (Hp rs Hq)
      as (done & todo & -> & Hsent & Hpending & Hst & Hch).
    rewrite Hpend in Hpending.
    destruct todo as [|r todo]; [discriminate|].
    cbn in Hpending. injection Hpending as -> ->.
    rewrite to_Event_updated in Hev. injection Hev as <-.
    exists (done ++ [r]), todo. cbn.
    split; [now rewrite <- app_assoc|].
    split; [now rewrite Hsent, map_app|].
    split; [reflexivity|].
    split; [discriminate|].
    intros Hc. destruct (Hch Hc). discriminate.
  - destruct (Hp rs Hq)
      as (done & todo & -> & Hsent & Hpending & Hst & Hch).
    rewrite Hpend in Hpending.
    destruct todo as [|r todo]; [discriminate|].
    cbn in Hpending. injection Hpending as -> ->.
    rewrite to_Event_updated in Hev. discriminate.
  - destruct (Hp rs Hq)
      as (done & todo & -> & Hsent & Hpending & Hst & Hch).
    rewrite Hpend in Hpending.
    destruct todo as [|r todo]; [|discriminate].
    exists done, []. cbn.
    split; [reflexivity|]. split; [assumption|]. split; [reflexivity|].
    split; [discriminate|].
    intros _. split; reflexivity.
Qed.

Lemma steps_in_order (p : @value.pipe W) :
  value.steps value.pipe0 p ->
  forall rs, value.produced p = map iEvent rs -> in_order p rs.
Proof.
  intros Hrun. remember value.pipe0 as p0 eqn:Hp0.
  induction Hrun as [p|p q r _ IH Hstep]; subst.
  - intros rs Hrs. cbn in Hrs. symmetry in Hrs. apply map_eq_nil in Hrs.
    subst rs. exists [], []. cbn.
    split; [reflexivity|]. split; [reflexivity|]. split; [reflexivity|].
    split; discriminate.
  - apply (step_in_order q r Hstep). now apply IH.
Qed.

Lemma steps_trans (p q r : @value.pipe W) :
  value.steps p q -> value.steps q r -> value.steps p r.
Proof.
  intros Hpq Hqr. induction Hqr as [|q r' r'' _ IH Hstep].
  - exact Hpq.
  - eapply value.steps_step; [apply IH; exact Hpq | exact Hstep].
Qed.

Lemma steps_produce (rs : list value.EventResponse) :
  @value.steps W value.pipe0 (forwarded rs 0).
Proof.
  induction rs as [|r rs IH] using rev_ind.
  - apply value.steps_refl.
  - eapply value.steps_step; [exact IH|].
    unfold forwarded. cbn. rewrite map_app. cbn.
    exact (value.step_produce (forwarded rs 0) (iEvent r) eq_refl).
Qed.

Lemma steps_forward (rs : list value.EventResponse) (k : nat) :
  (k <= List.length rs)%nat ->
  @value.steps W value.pipe0 (forwarded rs k).
Proof.
  induction k as [|k IH]; intros Hk.
  - apply steps_produce.
  - eapply value.steps_step; [apply IH; lia|].
    destruct (skipn k rs) as [|r rest] eqn:Hskip.
    { apply (f_equal (@List.length _)) in Hskip.
      rewrite length_skipn in Hskip. simpl in Hskip. lia. }
    assert (Hfirst : firstn (S k) rs = firstn k rs ++ [r]).
    { rewrite <- (firstn_skipn k rs) at 1.
      rewrite firstn_app, Hskip.
      rewrite length_firstn, Nat.min_l by lia.
      replace (S k - k)%nat with 1%nat by lia.
      rewrite firstn_all2 by (rewrite length_firstn; lia).
      reflexivity. }
    assert (Hrest : skipn (S k) rs = rest).
    { replace (S k) with (1 + k)%nat by lia.
      rewrite <- skipn_skipn, Hskip. reflexivity. }
    unfold forwarded at 2. rewrite Hfirst, Hrest, map_app. cbn.
    apply (value.step_forward (forwarded rs k) (iEvent r)
             (map iEvent rest) (updated r)).
    + reflexivity.
    + cbn. now rewrite Hskip.
    + reflexivity.
Qed.

(** Some run delivers every event and closes [ch]. *)
Lemma steps_complete (rs : list value.EventResponse) :
  exists p : @value.pipe W,
    value.steps value.pipe0 p /\
    value.produced p = map iEvent rs /\
    value.sent p = map updated rs /\
    value.ch_closed p = true /\
    value.state p = value.Finished.
Proof.
  pose proof (steps_forward rs (List.length rs) (le_n _)) as Hrun.
  eexists. split.
  - eapply value.steps_step; [eapply value.steps_step; [exact Hrun|]|].
    + apply value.step_close_stream.
    + apply value.step_finish; cbn.
      * reflexivity.
      * now rewrite skipn_all.
      * reflexivity.
  - cbn. rewrite firstn_all. repeat split; reflexivity.
Qed.
End Forwarding.

(** C7: [Watch] starts one goroutine that forwards the stream of the
  session to [ch].  At every moment of every run the events sent on [ch]
  are, in stream order, the updates of the responses received so far:
  type [EventUpdated], value and version the new value and new version
  of the response; once [ch] is closed all of them were sent, and some
  run gets there.  On the reference partition, after three [Set]s the
  consumer observes exactly the three updates, in order. *)
Theorem Watch_delivers_in_order :
  (forall (W ClientConn Stream chan : Type)
          (NewValueServiceClient : ClientConn -> @value.ValueServiceClient W)
          (v : @value.value W ClientConn Stream)
          (sess : @value.Session W ClientConn Stream) (ch : chan)
          (w w' : W) (stream : option Stream),
     value.session v = Some sess ->
     value.DoCommandStream sess
       (value.Watch_open NewValueServiceClient)
       value.Watch_recv w = Done (stream, None) w' ->
     value.value_Watch NewValueServiceClient v ch w =
     Done (None, [value.forwarder stream ch]) w') /\
  (forall (W : Type) (p : @value.pipe W) (rs : list value.EventResponse),
     value.steps value.pipe0 p ->
     value.produced p = map value.iEventResponse rs ->
     in_order p rs) /\
  (forall (W : Type) (rs : list value.EventResponse),
     exists p : @value.pipe W,
       value.steps value.pipe0 p /\
       value.produced p = map value.iEventResponse rs /\
       value.sent p = map updated rs /\
       value.ch_closed p = true) /\
  (forall (v1 v2 v3 : bytes) (k : nat),
     exists w',
       ref.watch_three v1 v2 v3 (4 + k) ref.fresh =
       Done (None,
             Some [ {| value.Type_ := value.EventUpdated;
                       value.Value := v1; value.Version := 1 |};
                    {| value.Type_ := value.EventUpdated;
                       value.Value := v2; value.Version := 2 |};
                    {| value.Type_ := value.EventUpdated;
                       value.Value := v3; value.Version := 3 |} ]) w').
Proof.
  split; [|split; [|split]].
  - intros W CC St chan NVC v sess ch w w' stream Hsess Hopen.
    unfold value.value_Watch, value.the_session, bind.
    rewrite Hsess. unfold ret. rewrite Hopen. reflexivity.
  - intros W p rs Hrun Hrs. now apply steps_in_order.
  - intros W rs.
    destruct (@steps_complete W rs) as (p & Hrun & Hprod & Hsent & Hch & _).
    exists p. auto.
  - intros v1 v2 v3 k. eexists. cbv. reflexivity.
Qed.

Lemma Watch_delivers_in_order_witness :
  (exists w',
     ref.the_Watch 0%nat ref.fresh =
     Done (None,
           [value.forwarder
              (Some {| ref.source :=
                         value.iEventsClient
                           {| value.Recv := ref.server_Recv 1 |};
                       ref.next := value.Watch_recv |}) 0%nat]) w') /\
  in_order (W := unit) (forwarded [ref.no_event; ref.no_event] 1)
           [ref.no_event; ref.no_event].
Proof.
  destruct Watch_delivers_in_order as (HWatch & Hsafe & _ & _). split.
  - eexists.
    apply (HWatch ref.World unit ref.Stream nat ref.NewValueServiceClient
             ref.the_value ref.session 0%nat ref.fresh).
    + reflexivity.
    + reflexivity.
  - apply Hsafe.
    + apply steps_forward. simpl. lia.
    + reflexivity.
Defined.

(* ================================================================== *)
(** ** The seed scenarios, run                                          *)
(* ================================================================== *)

(** Seed scenario 1: the conditional set of an atomic value. *)
Example conditional_set_scenario :
  exists w',
    ('(n1, e1) <- ref.the_Set (txt "A") [] ;;
     '(n2, e2) <- ref.the_Set (txt "B") [value.IfVersion 1] ;;
     '(n3, e3) <- ref.the_Set (txt "C") [value.IfVersion 1] ;;
     got <- ref.the_Get ;;
     ret (n1, e1, (n2, e2), (n3, e3), got)) ref.fresh =
    Done (1, None, (2, None),
          (0, Some (errors_New "version mismatch")),
          (txt "B", 2, None)) w'.
Proof.
  eexists. vm_compute. reflexivity.
Qed.

(** Seed scenario 2: three values added to a Set over three partitions
    go to the partitions the partitioner names, and the size is 3. *)
Example sharded_set_scenario :
  (_ <- set.set_Add mem.fnv32a mem.three "x" ;;
   _ <- set.set_Add mem.fnv32a mem.three "y" ;;
   _ <- set.set_Add mem.fnv32a mem.three "z" ;;
   found <- set.set_Contains mem.fnv32a mem.three "z" ;;
   size <- set.set_Size [2; 0; 1]%nat mem.three ;;
   ret (found, size)) [] =
  Done (true, None, (3, None)) [["x"]; ["z"; "y"]].
Proof.
  vm_compute. reflexivity.
Qed.

(** [New] keeps the partitions in the order of the connections, whatever
    the order in which their construction completes. *)
Example ordered_construction :
  set.New mem.newPartition [2; 0; 1]%nat "default" "test" [4; 3; 5]%nat [] [] =
  Done (Some {| set.Namespace := "default"; set.Name := "test";
                set.partitions :=
                  [mem.partition 4; mem.partition 3; mem.partition 5] |},
        None) [].
Proof.
  reflexivity.
Qed.


(* ================================================================== *)
(** ** More on the fan-out                                              *)
(* ================================================================== *)

Lemma invocations_in (n : Z) (sched : list nat) (i : nat) :
  In i (util.invocations n sched) -> In i sched /\ Z.of_nat i < n.
Proof.
  unfold util.invocations. intros Hi. apply filter_In in Hi.
  destruct Hi as [Hi Hlt]. split; [exact Hi | now apply Z.ltb_lt].
Qed.

Lemma call_returns {W A : Type} (c : Call W A) (w : W) :
  call c w = Done (fst (c w)) (snd (c w)).
Proof.
  unfold call. now destruct (c w).
Qed.

Section GatherRuns.
Context {W A : Type}.
Variable f : Z -> M W (A * option error).

(** A fan-out whose invocations all return does return, and its results
    keep what every single result satisfies. *)
Lemma gather_returns (P : A -> Prop) (order : list nat) :
  (forall i w, In i order ->
     exists r err w', f (Z.of_nat i) w = Done (r, err) w' /\ P r) ->
  forall w, exists res err w',
    util.gather f order w = Done (res, err) w' /\
    Forall (fun x => P (snd x)) res.
Proof.
  induction order as [|i rest IH]; intros Hrun w.
  - exists [], None, w. split; [reflexivity | constructor].
  - destruct (Hrun i w (or_introl eq_refl)) as (r & err & w1 & H1 & HP).
    cbn [util.gather]. unfold bind. rewrite H1.
    destruct err as [e|].
    + exists [], (Some e), w1. split; [reflexivity | constructor].
    + destruct (IH (fun j w0 Hj => Hrun j w0 (or_intror Hj)) w1)
        as (res & err' & w2 & H2 & HF).
      rewrite H2. destruct err' as [e|].
      * exists [], (Some e), w2. split; [reflexivity | constructor].
      * exists ((i, r) :: res), None, w2.
        split; [reflexivity | now constructor].
Qed.

End GatherRuns.

Section SetSafety.
Context {W chan : Type}.



Lemma valid_invocation (s : @set.set W chan) (sched : list nat) (i : nat) :
  In i (util.invocations (len (set.partitions s)) sched) ->
  exists p, nth_error (set.partitions s) i = Some p.
Proof.
  intros Hi. apply invocations_in in Hi. destruct Hi as [_ Hlt].
  unfold len in Hlt.
  destruct (nth_error (set.partitions s) i) as [p|] eqn:Hp; [eauto|].
  apply nth_error_None in Hp. lia.
Qed.

Lemma sum_results_returns (rs : list (nat * set.iface chan)) (size : Z)
    (w : W) :
  Forall (fun x => exists n, snd x = set.iint n) rs ->
  exists total, set.sum_results (map snd rs) size w = Done total w.
Proof.
  intros HF. revert size. induction HF as [|[i r] rs [n Hn] _ IH]; intros size.
  - exists size. reflexivity.
  - cbn in Hn. subst r. cbn. apply IH.
Qed.

Lemma broadcast_returns (s : @set.set W chan)
    (m : set.Set_ chan -> Call W (option error)) (sched : list nat) (w : W) :
  returns (@set.broadcast W chan sched s m) w.
Proof.
  unfold returns, set.broadcast, util.IterAsync. fold (action (set.broadcast_fn s m)).
  destruct (gather_returns (action (set.broadcast_fn s m)) (fun _ => True)
              (util.invocations (len (set.partitions s)) sched)) with (w := w)
    as (res & err & w' & Hg & _).
  { intros i w0 Hi. destruct (valid_invocation _ _ _ Hi) as [p Hp].
    unfold action, bind. rewrite (broadcast_fn_at _ _ _ _ _ Hp).
    unfold ret. eauto 6. }
  unfold bind at 1. rewrite Hg. unfold ret. eauto.
Qed.
End SetSafety.

(** X1: no method of the sharded Set panics.  On a Set with at least
    one partition [Add], [Remove] and [Contains] return for every value;
    and on every Set, for every order in which the scheduler completes the
    calls, [Size], [Clear], [Listen], [Close] and [Delete] return: the
    slice accesses are in range and the type assertion of [Size] holds. *)
Theorem set_never_panics :
  forall (W chan : Type) (s : @set.set W chan),
    (forall (hash : string -> Z) (v : string) (w : W),
       1 <= len (set.partitions s) ->
       returns (set.set_Add hash s v) w /\
       returns (set.set_Remove hash s v) w /\
       returns (set.set_Contains hash s v) w) /\
    (forall (sched : list nat) (ch : chan) (w : W),
       returns (set.set_Size sched s) w /\
       returns (set.set_Clear sched s) w /\
       returns (set.set_Listen sched s ch) w /\
       returns (set.set_Close sched s) w /\
       returns (set.set_Delete sched s) w).
Proof.
  intros W chan s. split.
  - intros hash v w HN.
    destruct (getPartition_in_range hash s v HN) as (p & _ & Hg).
    unfold returns, set.set_Add, set.set_Remove, set.set_Contains, bind.
    rewrite Hg. cbn. rewrite !call_returns.
    repeat split; eexists; eexists; reflexivity.
  - intros sched ch w.
    split; [|repeat split; apply broadcast_returns].
    unfold returns, set.set_Size, util.ExecuteAsync.
    destruct (gather_returns (set.Size_fn s)
                (fun r => exists n, r = set.iint n)
                (util.invocations (len (set.partitions s)) sched))
      with (w := w) as (res & err & w' & Hg & HF).
    { intros i w0 Hi. destruct (valid_invocation _ _ _ Hi) as [p Hp].
      rewrite (Size_fn_at _ _ _ _ Hp). eauto 7. }
    unfold bind. rewrite Hg. destruct err as [e|].
    + unfold ret. eauto.
    + destruct (sum_results_returns res 0 w' HF) as [total Ht].
      unfold ret. rewrite Ht. eauto.
Qed.

Lemma set_never_panics_witness :
  returns (set.set_Add mem.fnv32a mem.three "y") [] /\
  returns (set.set_Size [2; 0; 1]%nat mem.three) [].
Proof.
  destruct (set_never_panics mem.World nat mem.three) as [Hkey Hfan].
  split.
  - apply (Hkey mem.fnv32a "y" []). vm_compute. discriminate.
  - apply (Hfan [2; 0; 1]%nat 0%nat []).
Defined.

Section Broadcast.
Context {W chan : Type}.

Lemma set_op_broadcast (op : broadcast_op chan) (sched : list nat)
    (s : @set.set W chan) :
  set_op op sched s = @set.broadcast W chan sched s (partition_op op).
Proof.
  destruct op; reflexivity.
Qed.

Lemma broadcast_gather (s : @set.set W chan)
    (m : set.Set_ chan -> Call W (option error)) (sched : list nat) (w : W) :
  @set.broadcast W chan sched s m w =
  match util.gather (action (set.broadcast_fn s m))
          (util.invocations (len (set.partitions s)) sched) w with
  | Done (_, err) w' => Done err w'
  | Panic msg => Panic msg
  end.
Proof.
  unfold set.broadcast, util.IterAsync. fold (action (set.broadcast_fn s m)).
  unfold bind at 1.
  destruct (util.gather _ _ w) as [[res err] w'|msg]; reflexivity.
Qed.

Lemma action_at (s : @set.set W chan)
    (m : set.Set_ chan -> Call W (option error)) (i : nat)
    (p : set.Set_ chan) (w : W) :
  nth_error (set.partitions s) i = Some p ->
  action (set.broadcast_fn s m) (Z.of_nat i) w =
  Done (tt, fst (m p w)) (snd (m p w)).
Proof.
  intros Hp. unfold action, bind. now rewrite (broadcast_fn_at _ _ _ _ _ Hp).
Qed.

(** The run of a broadcast whose calls all succeed. *)
Lemma gather_broadcast_ok (I : W -> Prop) (s : @set.set W chan)
    (m : set.Set_ chan -> Call W (option error)) (order : list nat) :
  (forall i, In i order -> (i < List.length (set.partitions s))%nat) ->
  (forall p w0, In p (set.partitions s) -> I w0 ->
     fst (m p w0) = None /\ I (snd (m p w0))) ->
  forall w, I w ->
    util.gather (action (set.broadcast_fn s m)) order w =
      Done (map (fun i => (i, tt)) order, None)
           (run_each m (set.partitions s) order w) /\
    I (run_each m (set.partitions s) order w).
Proof.
  intros Hvalid Hok. induction order as [|i rest IH]; intros w Hw.
  - split; [reflexivity | assumption].
  - destruct (nth_error (set.partitions s) i) as [p|] eqn:Hp.
    + destruct (Hok p w (nth_error_In _ _ Hp) Hw) as [Hnone Hnext].
      destruct (IH (fun j Hj => Hvalid j (or_intror Hj)) _ Hnext) as [Hrun HI].
      cbn [util.gather run_each map]. rewrite Hp. unfold bind.
      rewrite (action_at _ _ _ _ _ Hp), Hnone, Hrun.
      split; [reflexivity | assumption].
    + apply nth_error_None in Hp.
      specialize (Hvalid i (or_introl eq_refl)). lia.
Qed.
End Broadcast.



(** X3: when the method succeeds on every partition, [Clear], [Listen],
    [Close] and [Delete] return no error after exactly one call of the
    method on every partition, made in the order of the schedule. *)
Theorem set_broadcast_reaches_all :
  forall (W chan : Type) (I : W -> Prop) (op : broadcast_op chan)
         (s : @set.set W chan) (sched : list nat) (w : W),
    schedule (List.length (set.partitions s)) sched ->
    I w ->
    (forall p w0, In p (set.partitions s) -> I w0 ->
       fst (partition_op op p w0) = None /\
       I (snd (partition_op op p w0))) ->
    set_op op sched s w =
      Done None (run_each (partition_op op) (set.partitions s) sched w) /\
    I (run_each (partition_op op) (set.partitions s) sched w).
Proof.
  intros W chan I op s sched w Hs Hw Hok.
  rewrite set_op_broadcast, broadcast_gather. unfold len.
  rewrite (invocations_schedule _ _ Hs).
  destruct (gather_broadcast_ok I s (partition_op op) sched) with (w := w)
    as [Hrun HI]; try assumption.
  - intros i Hi. now apply (schedule_in _ _ _ Hs).
  - rewrite Hrun. split; [reflexivity | assumption].
Qed.

Lemma set_broadcast_reaches_all_witness :
  set.set_Clear [2; 0; 1]%nat mem.three [["a"]; ["b"]; ["c"]] =
  Done None [[]; []; []].
Proof.
  apply (set_broadcast_reaches_all mem.World nat (fun _ => True) op_Clear
           mem.three [2; 0; 1]%nat [["a"]; ["b"]; ["c"]]).
  - apply schedule_201.
  - exact Logic.I.
  - intros p w0 Hp _. simpl in Hp.
    destruct Hp as [<-|[<-|[<-|[]]]]; split; try exact Logic.I; reflexivity.
Defined.

(** X4: when the method always fails on one partition, [Clear], [Listen],
    [Close] and [Delete] return an error, in whatever order the calls
    complete: the error of the first call that fails in that order, in the
    state that call left. *)
Theorem set_broadcast_fail_fast :
  forall (W chan : Type) (op : broadcast_op chan) (s : @set.set W chan)
         (sched : list nat) (k : nat) (p : set.Set_ chan) (w : W),
    schedule (List.length (set.partitions s)) sched ->
    nth_error (set.partitions s) k = Some p ->
    (forall w0, fst (partition_op op p w0) <> None) ->
    exists e w',
      first_error (action (set.broadcast_fn s (partition_op op))) sched w e w' /\
      set_op op sched s w = Done (Some e) w'.
Proof.
  intros W chan op s sched k p w Hs Hk Hfail.
  destruct (some_first_error
              (action (set.broadcast_fn s (partition_op op))) sched k)
    with (w := w) as (e & w' & He).
  - intros i w0 Hi. apply (schedule_in _ _ _ Hs) in Hi.
    destruct (nth_error (set.partitions s) i) as [q|] eqn:Hq.
    + rewrite (action_at _ _ _ _ _ Hq). eauto.
    + apply nth_error_None in Hq. lia.
  - apply (schedule_in _ _ _ Hs). apply nth_error_Some. congruence.
  - intros w0 r w1. rewrite (action_at _ _ _ _ _ Hk).
    intros Heq. injection Heq as _ Herr _. now apply (Hfail w0).
  - exists e, w'. split; [exact He|].
    apply gather_first_error in He.
    rewrite set_op_broadcast, broadcast_gather. unfold len.
    rewrite (invocations_schedule _ _ Hs), He. reflexivity.
Qed.

Lemma set_broadcast_fail_fast_witness :
  exists e w', set.set_Close [2; 0; 1]%nat mem.one_down [] = Done (Some e) w'.
Proof.
  destruct (set_broadcast_fail_fast mem.World nat op_Close mem.one_down
              [2; 0; 1]%nat 1%nat mem.unreachable [])
    as (e & w' & _ & Hrun).
  - apply schedule_201.
  - reflexivity.
  - intros w0. simpl. discriminate.
  - exists e, w'. exact Hrun.
Defined.

Section Ordered.
Context {A : Type}.

Lemma slot_found (nil_ : A) (g : nat -> A) (order : list nat) (i : nat) :
  In i order ->
  util.slot nil_ (map (fun j => (j, g j)) order) i = g i.
Proof.
  induction order as [|j rest IH]; intros Hi; [destruct Hi|].
  cbn [map util.slot]. destruct (Nat.eqb j i) eqn:Hji.
  - apply Nat.eqb_eq in Hji. now subst.
  - apply Nat.eqb_neq in Hji. destruct Hi as [Hi|Hi]; [contradiction|].
    now apply IH.
Qed.

Lemma map_nth_error_seq {X : Type} (h : option X -> A) (l : list X) :
  map (fun i => h (nth_error l i)) (seq 0 (List.length l)) =
  map (fun x => h (Some x)) l.
Proof.
  induction l as [|x l IH]; [reflexivity|].
  cbn [List.length seq map nth_error]. f_equal.
  rewrite <- seq_shift, map_map. exact IH.
Qed.
End Ordered.

Lemma assert_Sets_ok {W chan : Type} (ps : list (@set.Set_ W chan)) (w : W) :
  set.assert_Sets (map set.iSet ps) w = Done ps w.
Proof.
  induction ps as [|p ps IH]; [reflexivity|].
  cbn [map set.assert_Sets]. unfold bind. now rewrite IH.
Qed.

(** X5: when every partition can be constructed, [New] returns a Set
    with the given namespace and name whose partitions are the ones
    constructed for the connections, in the order of the connections,
    whatever the order in which the constructions complete. *)
Theorem New_keeps_connection_order :
  forall (W ClientConn SessionOption chan : Type) (I : W -> Prop)
         (newPartition : ClientConn -> string -> string ->
            list SessionOption ->
            Call W (option (@set.Set_ W chan) * option error))
         (mk : ClientConn -> @set.Set_ W chan)
         (sched : list nat) (namespace name : string)
         (conns : list ClientConn) (opts : list SessionOption) (w : W),
    schedule (List.length conns) sched ->
    I w ->
    (forall conn w0, In conn conns -> I w0 ->
       fst (newPartition conn namespace name opts w0) = (Some (mk conn), None) /\
       I (snd (newPartition conn namespace name opts w0))) ->
    exists w',
      set.New newPartition sched namespace name conns opts w =
      Done (Some {| set.Namespace := namespace; set.Name := name;
                    set.partitions := map mk conns |}, None) w' /\
      I w'.
Proof.
  intros W CC SO chan I newPartition mk sched ns name conns opts w Hs Hw Hok.
  set (g := fun i => @set.of_Set W chan (option_map mk (nth_error conns i))).
  destruct (gather_all_ok (set.New_fn newPartition ns name conns opts) I g sched)
    with (w := w) as (w' & Hg & Hw'); [|assumption|].
  { intros i w0 Hi Hw0. apply (schedule_in _ _ _ Hs) in Hi.
    destruct (nth_error conns i) as [conn|] eqn:Hc.
    - exists (snd (newPartition conn ns name opts w0)).
      rewrite (New_fn_at _ _ _ _ _ _ _ _ Hc).
      destruct (Hok conn w0 (nth_error_In _ _ Hc) Hw0) as [Hres Hnext].
      rewrite Hres. unfold g. rewrite Hc. split; [reflexivity | assumption].
    - apply nth_error_None in Hc. lia. }
  exists w'. split; [|assumption].
  unfold set.New, util.ExecuteOrderedAsync, bind, len.
  rewrite (invocations_schedule _ _ Hs), Hg. unfold ret.
  rewrite Nat2Z.id.
  rewrite (map_ext_in _ g).
  - unfold g.
    rewrite (map_nth_error_seq (fun o => set.of_Set (option_map mk o)) conns).
    cbn [option_map set.of_Set].
    rewrite <- (map_map mk set.iSet), assert_Sets_ok. reflexivity.
  - intros i Hi. apply slot_found. apply (schedule_in _ _ _ Hs).
    apply in_seq in Hi. lia.
Qed.

Lemma New_keeps_connection_order_witness :
  exists w',
    set.New mem.newPartition [2; 0; 1]%nat "default" "test" [4; 3; 5]%nat [] []
    = Done (Some {| set.Namespace := "default"; set.Name := "test";
                    set.partitions := map mem.partition [4; 3; 5]%nat |},
            None) w'.
Proof.
  destruct (New_keeps_connection_order mem.World nat unit nat (fun _ => True)
              mem.newPartition mem.partition [2; 0; 1]%nat "default" "test"
              [4; 3; 5]%nat [] []) as (w' & Hrun & _).
  - apply schedule_201.
  - exact Logic.I.
  - intros conn w0 Hc _. simpl in Hc.
    destruct Hc as [<-|[<-|[<-|[]]]]; split; try exact Logic.I; reflexivity.
  - exists w'. exact Hrun.
Defined.

Lemma schedule_one (sched : list nat) : schedule 1 sched -> sched = [0%nat].
Proof.
  intros Hs. apply Permutation_sym in Hs.
  now apply Permutation_length_1_inv in Hs.
Qed.

(** X6: a Set over a single partition behaves as that partition.
    Whatever the hash of the value, [Add], [Remove] and [Contains] are the
    partition's; [Clear], [Listen], [Close] and [Delete] are the
    partition's; and [Size] returns the partition's size, or 0 with the
    partition's error. *)
Theorem single_partition_set :
  forall (W chan : Type) (hash : string -> Z) (s : @set.set W chan)
         (p : set.Set_ chan) (sched : list nat) (v : string)
         (op : broadcast_op chan) (w : W),
    set.partitions s = [p] ->
    schedule 1 sched ->
    set.set_Add hash s v w = call (set.Add p v) w /\
    set.set_Remove hash s v w = call (set.Remove p v) w /\
    set.set_Contains hash s v w = call (set.Contains p v) w /\
    set_op op sched s w = call (partition_op op p) w /\
    (forall n err w',
       set.Size p w = (n, err, w') ->
       set.set_Size sched s w =
       Done (match err with Some _ => 0 | None => wrap_int n end, err) w').
Proof.
  intros W chan hash s p sched v op w Hp Hs.
  apply schedule_one in Hs. subst sched.
  assert (HN : 1 <= len (set.partitions s))
    by (rewrite Hp; unfold len; simpl List.length; lia).
  destruct (getPartition_in_range hash s v HN) as (q & Hq & Hg).
  assert (q = p).
  { rewrite Hp in Hq. unfold len in Hq. simpl List.length in Hq.
    change (Z.of_nat 1) with 1 in Hq. rewrite Z.mod_1_r in Hq.
    simpl in Hq. congruence. }
  subst q.
  assert (H0 : nth_error (set.partitions s) 0 = Some p) by now rewrite Hp.
  assert (Hinv : util.invocations (len (set.partitions s)) [0%nat] = [0%nat])
    by now rewrite Hp.
  repeat split.
  - unfold set.set_Add, bind. now rewrite Hg.
  - unfold set.set_Remove, bind. now rewrite Hg.
  - unfold set.set_Contains, bind. now rewrite Hg.
  - rewrite set_op_broadcast, broadcast_gather, Hinv.
    cbn [util.gather]. unfold bind.
    rewrite (action_at s (partition_op op) 0 p w H0).
    unfold call. destruct (partition_op op p w) as [[e|] w']; reflexivity.
  - intros n err w' HSize.
    unfold set.set_Size, util.ExecuteAsync. rewrite Hinv.
    cbn [util.gather]. unfold bind.
    rewrite (Size_fn_at s 0 p w H0), HSize. cbn.
    destruct err as [e|]; reflexivity.
Qed.

Lemma single_partition_set_witness :
  set.set_Add mem.fnv32a
    {| set.Namespace := "default"; set.Name := "test";
       set.partitions := [mem.partition 0] |} "y" [] =
  Done (true, None) [["y"]].
Proof.
  destruct (single_partition_set mem.World nat mem.fnv32a
              {| set.Namespace := "default"; set.Name := "test";
                 set.partitions := [mem.partition 0] |}
              (mem.partition 0) [0%nat] "y" op_Clear [])
    as (HAdd & _).
  - reflexivity.
  - apply Permutation_refl.
  - rewrite HAdd. reflexivity.
Defined.

(** X7: two key-routed operations on the same value reach the same
    partition, so the Set inherits a round trip of its partitions: if on
    every partition [Contains] of a value just added returns true, then
    on the Set [Add] followed by [Contains] of that value returns true. *)
Theorem set_Add_then_Contains :
  forall (W chan : Type) (hash : string -> Z) (s : @set.set W chan)
         (v : string) (w : W),
    1 <= len (set.partitions s) ->
    (forall p w0, In p (set.partitions s) ->
       fst (set.Contains p v (snd (set.Add p v w0))) = (true, None)) ->
    exists w',
      (_ <- set.set_Add hash s v ;; set.set_Contains hash s v) w =
      Done (true, None) w'.
Proof.
  intros W chan hash s v w HN Hround.
  destruct (getPartition_in_range hash s v HN) as (p & Hp & Hg).
  apply nth_error_In in Hp. specialize (Hround p w Hp).
  unfold set.set_Add, set.set_Contains, bind. rewrite Hg. cbn.
  unfold call. destruct (set.Add p v w) as [added w1]. cbn in Hround.
  rewrite Hg. cbn. unfold call.
  destruct (set.Contains p v w1) as [found w2]. cbn in Hround. subst found.
  exists w2. reflexivity.
Qed.

Lemma mem_elems_put (i : nat) (xs : list string) (w : mem.World) :
  mem.elems i (mem.put i xs w) = xs.
Proof.
  unfold mem.elems. revert w. induction i as [|i IH]; intros [|ys w]; simpl;
    try reflexivity; apply IH.
Qed.

Lemma mem_round_trip (i : nat) (v : string) (w : mem.World) :
  fst (set.Contains (mem.partition i) v (snd (set.Add (mem.partition i) v w)))
  = (true, None).
Proof.
  simpl. destruct (mem.mem v (mem.elems i w)) eqn:Hm; simpl.
  - now rewrite Hm.
  - rewrite mem_elems_put. unfold mem.mem. simpl. now rewrite String.eqb_refl.
Qed.

Lemma set_Add_then_Contains_witness :
  exists w',
    (_ <- set.set_Add mem.fnv32a mem.three "x" ;;
     set.set_Contains mem.fnv32a mem.three "x") [] = Done (true, None) w'.
Proof.
  apply (set_Add_then_Contains mem.World nat mem.fnv32a mem.three "x" []).
  - vm_compute. discriminate.
  - intros p w0 Hp. simpl in Hp.
    destruct Hp as [<-|[<-|[<-|[]]]]; apply mem_round_trip.
Defined.

(* ================================================================== *)
(** ** More on the atomic Value                                         *)
(* ================================================================== *)



(** X9: the outcomes of [Set].  It returns a version without error only
    for a response that reports success, and then the version of that
    response; an error of the session is returned unchanged with version
    0; and every error of [Set] is either the session's or one of the two
    mismatch errors on a response that reports failure.  In every case
    [Set] returns in the state the command left. *)
Theorem Set_outcomes :
  forall (W ClientConn Stream : Type)
         (NewValueServiceClient : ClientConn -> @value.ValueServiceClient W)
         (v : @value.value W ClientConn Stream)
         (val : bytes) (opts : list value.SetOption) (w : W),
    (forall n w',
       value.value_Set NewValueServiceClient v val opts w = Done (n, None) w' ->
       exists response,
         value.Set_command NewValueServiceClient v val opts w =
           Done (value.iSetResponse response, None) w' /\
         value.Succeeded response = true /\
         n = value.SetResponse_Version response) /\
    (forall r e w',
       value.Set_command NewValueServiceClient v val opts w =
         Done (r, Some e) w' ->
       value.value_Set NewValueServiceClient v val opts w =
         Done (0, Some e) w') /\
    (forall n e w',
       value.value_Set NewValueServiceClient v val opts w =
         Done (n, Some e) w' ->
       (exists r,
          value.Set_command NewValueServiceClient v val opts w =
            Done (r, Some e) w') \/
       (exists response,
          value.Set_command NewValueServiceClient v val opts w =
            Done (value.iSetResponse response, None) w' /\
          value.Succeeded response = false /\
          (e = errors_New "version mismatch" \/
           e = errors_New "value mismatch"))).
Proof.
  intros W CC St NVC v val opts w. split; [|split].
  - intros n w'. unfold value.value_Set, bind.
    destruct (value.Set_command NVC v val opts w) as [[r [e|]] w1|msg];
      unfold ret, panic; try discriminate.
    destruct r as [|response| | |]; try discriminate.
    destruct (value.Succeeded response) eqn:Hs; cbn.
    + intros H. injection H as <- <-. exists response. auto.
    + destruct (0 <? _); discriminate.
  - intros r e w' Hc. unfold value.value_Set, bind. now rewrite Hc.
  - intros n e w'. unfold value.value_Set, bind.
    destruct (value.Set_command NVC v val opts w) as [[r [e0|]] w1|msg];
      unfold ret, panic; try discriminate.
    + intros H. injection H as _ <- <-. left. eauto.
    + destruct r as [|response| | |]; try discriminate.
      destruct (value.Succeeded response) eqn:Hs; cbn; [discriminate|].
      destruct (0 <? _); intros H; injection H as _ <- <-;
        right; exists response; auto.
Qed.

Lemma Set_outcomes_witness :
  exists n w' response,
    ref.the_Set (txt "A") [] ref.fresh = Done (n, None) w' /\
    value.Succeeded response = true /\
    n = value.SetResponse_Version response.
Proof.
  destruct (Set_outcomes ref.World unit ref.Stream ref.NewValueServiceClient
              ref.the_value (txt "A") [] ref.fresh) as [Hok _].
  eexists. eexists.
  destruct (Hok _ _ eq_refl) as (response & _ & Hs & Hn).
  exists response. split; [reflexivity|]. split; assumption.
Defined.

(** X10: the type assertions of [Set] and [Get] are unchecked.  If the
    session returns no error together with anything but a set response
    (a get response for [Get]), nil included, the method panics. *)
Theorem unchecked_type_assertions :
  forall (W ClientConn Stream : Type)
         (NewValueServiceClient : ClientConn -> @value.ValueServiceClient W)
         (v : @value.value W ClientConn Stream)
         (val : bytes) (opts : list value.SetOption) (w : W),
    (forall r w',
       value.Set_command NewValueServiceClient v val opts w =
         Done (r, None) w' ->
       (forall response, r <> value.iSetResponse response) ->
       exists msg,
         value.value_Set NewValueServiceClient v val opts w = Panic msg) /\
    (forall r w',
       Get_query NewValueServiceClient v w = Done (r, None) w' ->
       (forall response, r <> value.iGetResponse response) ->
       exists msg, value.value_Get NewValueServiceClient v w = Panic msg).
Proof.
  intros W CC St NVC v val opts w. split.
  - intros r w' Hc Hr. unfold value.value_Set, bind. rewrite Hc.
    destruct r as [|response| | |]; unfold panic; eauto.
    now elim (Hr response).
  - intros r w' Hq Hr. unfold value.value_Get. unfold Get_query in Hq.
    unfold bind at 1. rewrite Hq.
    destruct r as [| |response| |]; unfold panic; eauto.
    now elim (Hr response).
Qed.

Lemma unchecked_type_assertions_witness :
  exists msg,
    value.value_Set stub.service careless.the_value (txt "a") [] tt =
    Panic msg.
Proof.
  destruct (unchecked_type_assertions unit unit unit stub.service
              careless.the_value (txt "a") [] tt) as [HSet _].
  apply (HSet value.inil tt).
  - reflexivity.
  - intros response. discriminate.
Defined.

(** X11: the outcomes of [Get].  With an error it returns no value and
    version 0, and the error is the session's; without error it returns
    the value and version of the response the query returned.  In both
    cases [Get] returns in the state the query left. *)
Theorem Get_outcomes :
  forall (W ClientConn Stream : Type)
         (NewValueServiceClient : ClientConn -> @value.ValueServiceClient W)
         (v : @value.value W ClientConn Stream) (w : W),
    (forall b n e w',
       value.value_Get NewValueServiceClient v w = Done (b, n, Some e) w' ->
       b = [] /\ n = 0 /\
       exists r, Get_query NewValueServiceClient v w = Done (r, Some e) w') /\
    (forall b n w',
       value.value_Get NewValueServiceClient v w = Done (b, n, None) w' ->
       exists response,
         Get_query NewValueServiceClient v w =
           Done (value.iGetResponse response, None) w' /\
         b = value.GetResponse_Value response /\
         n = value.GetResponse_Version response).
Proof.
  intros W CC St NVC v w.
  unfold value.value_Get. fold (Get_query NVC v). unfold bind at 1 2.
  destruct (Get_query NVC v w) as [[r [e0|]] w1|msg]; unfold ret, panic.
  - split.
    + intros b n e w' H. injection H as <- <- <- <-. eauto.
    + discriminate.
  - destruct r as [| |response| |]; split; try discriminate.
    intros b n w' H. injection H as <- <- <-. eauto.
  - split; discriminate.
Qed.

Lemma Get_outcomes_witness :
  exists b n w' response,
    ref.the_Get ref.fresh = Done (b, n, None) w' /\
    b = value.GetResponse_Value response /\
    n = value.GetResponse_Version response.
Proof.
  destruct (Get_outcomes ref.World unit ref.Stream ref.NewValueServiceClient
              ref.the_value ref.fresh) as [_ Hok].
  eexists. eexists. eexists.
  destruct (Hok _ _ _ eq_refl) as (response & _ & Hb & Hn).
  exists response. split; [reflexivity|]. split; assumption.
Defined.

(** X12: the outcomes of [Watch].  It returns the error of the session's
    command stream; it starts the forwarding goroutine exactly when that
    error is nil, a single one, from the stream the session returned to
    the channel of the caller; with an error it starts nothing, so [ch] is
    neither written nor closed. *)
Theorem Watch_outcomes :
  forall (W ClientConn Stream chan : Type)
         (NewValueServiceClient : ClientConn -> @value.ValueServiceClient W)
         (v : @value.value W ClientConn Stream) (ch : chan) (w : W)
         (err : option error) (started : list (value.goroutine Stream chan))
         (w' : W),
    value.value_Watch NewValueServiceClient v ch w = Done (err, started) w' ->
    exists stream,
      Watch_stream NewValueServiceClient v w = Done (stream, err) w' /\
      started = match err with
                | Some _ => []
                | None => [value.forwarder stream ch]
                end.
Proof.
  intros W CC St chan NVC v ch w err started w'.
  unfold value.value_Watch. fold (Watch_stream NVC v). unfold bind at 1.
  destruct (Watch_stream NVC v w) as [[stream [e|]] w1|msg];
    unfold ret; try discriminate;
    intros H; injection H as <- <- <-; eauto.
Qed.

Lemma Watch_outcomes_witness :
  exists stream w',
    Watch_stream stub.service stub.the_value tt =
      Done (stream, Some (TransportError "unavailable")) w'.
Proof.
  destruct (Watch_outcomes unit unit unit nat stub.service stub.the_value
              0%nat tt (Some (TransportError "unavailable")) [] tt eq_refl)
    as (stream & Hs & _).
  exists stream, tt. exact Hs.
Defined.

(* ================================================================== *)
(** ** More on the forwarding goroutine of Watch                        *)
(* ================================================================== *)

Section Accounting.
Context {W : Type}.

Lemma forward_snoc (consumed : list (@value.iface W)) (x : @value.iface W)
    (sent_ : list value.Event) (ev : value.Event) :
  value.forward consumed = Some sent_ ->
  value.to_Event x = Some ev ->
  value.forward (consumed ++ [x]) = Some (sent_ ++ [ev]).
Proof.
  revert sent_. induction consumed as [|y ys IH]; intros sent_ Hf Hx.
  - cbn in Hf. injection Hf as <-. cbn. now rewrite Hx.
  - cbn in *. destruct (value.to_Event y) as [ey|]; [|discriminate].
    destruct (value.forward ys) as [evs|]; [|discriminate].
    cbn in Hf. injection Hf as <-.
    now rewrite (IH evs eq_refl Hx).
Qed.

(** What every reachable state of the pipe accounts for. *)
Lemma steps_account (p : @value.pipe W) :
  value.steps value.pipe0 p ->
  match value.state p with
  | value.Running =>
      value.ch_closed p = false /\
      exists consumed,
        value.produced p = consumed ++ value.pending p /\
        value.forward consumed = Some (value.sent p)
  | value.Finished =>
      value.ch_closed p = true /\ value.stream_closed p = true /\
      value.pending p = [] /\
      value.forward (value.produced p) = Some (value.sent p)
  | value.Panicked =>
      value.ch_closed p = false /\
      exists consumed x,
        value.produced p = consumed ++ x :: value.pending p /\
        value.forward consumed = Some (value.sent p) /\
        value.to_Event x = None
  end.
Proof.
  intros Hrun. remember value.pipe0 as p0 eqn:Hp0.
  induction Hrun as [p|p q r _ IH Hstep]; subst.
  - cbn. split; [reflexivity|]. exists []. split; reflexivity.
  - specialize (IH eq_refl).
    destruct Hstep as [q x Hopen | q | q x rest ev Hstate Hpend Hev
                      | q x rest Hstate Hpend Hev | q Hstate Hpend Hclosed];
      cbn.
    + destruct (value.state q).
      * destruct IH as (Hch & consumed & Hprod & Hfw).
        split; [assumption|]. exists consumed.
        split; [now rewrite Hprod, app_assoc | assumption].
      * destruct IH as (_ & Hclosed & _). congruence.
      * destruct IH as (Hch & consumed & y & Hprod & Hfw & Hy).
        split; [assumption|]. exists consumed, y.
        split; [now rewrite Hprod, <- app_assoc | auto].
    + destruct (value.state q); [exact IH | | exact IH].
      destruct IH as (Hch & _ & Hpend & Hfw). auto.
    + rewrite Hstate in IH. destruct IH as (Hch & consumed & Hprod & Hfw).
      split; [assumption|]. exists (consumed ++ [x]).
      split; [now rewrite Hprod, Hpend, <- app_assoc|].
      now apply forward_snoc.
    + rewrite Hstate in IH. destruct IH as (Hch & consumed & Hprod & Hfw).
      split; [assumption|]. exists consumed, x.
      split; [now rewrite Hprod, Hpend | auto].
    + rewrite Hstate in IH. destruct IH as (Hch & consumed & Hprod & Hfw).
      rewrite Hpend, app_nil_r in Hprod. subst consumed. auto.
Qed.


End Accounting.

(** X13: the goroutine of [Watch] accounts for every item of the stream,
    whatever the stream carries.  While it runs, the events sent are the
    events of the items consumed so far, in order; when it has finished,
    it has forwarded the whole stream and closed [ch], and the stream was
    closed; and it panics only at an item that is not an event response,
    after forwarding the events before that item. *)
Theorem forwarder_accounts_for_the_stream :
  forall (W : Type) (p : @value.pipe W),
    value.steps value.pipe0 p ->
    (value.state p = value.Running ->
     exists consumed,
       value.produced p = consumed ++ value.pending p /\
       value.forward consumed = Some (value.sent p)) /\
    (value.state p = value.Finished ->
     value.forward (value.produced p) = Some (value.sent p) /\
     value.pending p = [] /\
     value.ch_closed p = true /\ value.stream_closed p = true) /\
    (value.state p = value.Panicked ->
     exists consumed x,
       value.produced p = consumed ++ x :: value.pending p /\
       value.forward consumed = Some (value.sent p) /\
       value.to_Event x = None).
Proof.
  intros W p Hrun. pose proof (steps_account p Hrun) as H.
  split; [|split]; intros Hst; rewrite Hst in H.
  - now destruct H.
  - destruct H as (Hch & Hcl & Hpend & Hfw). auto.
  - now destruct H.
Qed.

Lemma forwarder_accounts_for_the_stream_witness :
  exists consumed,
    value.produced (forwarded (W := unit) [ref.no_event; ref.no_event] 1) =
      consumed ++
      value.pending (forwarded (W := unit) [ref.no_event; ref.no_event] 1) /\
    value.forward consumed =
      Some (value.sent (forwarded (W := unit) [ref.no_event; ref.no_event] 1)).
Proof.
  destruct (forwarder_accounts_for_the_stream unit
              (forwarded [ref.no_event; ref.no_event] 1)) as (H & _ & _).
  - apply steps_forward. simpl. lia.
  - apply H. reflexivity.
Defined.





(* ================================================================== *)
(** ** The session handler of the counter                               *)
(* ================================================================== *)

(** X16: the handler updates the session header only in [Create], and
    only when the RPC succeeded.  [Close], [Delete] and [KeepAlive] do
    not depend on how the session updates its header, [KeepAlive] does
    nothing at all, a failed [Create] returns the error of the RPC
    without updating, and a successful [Create] leaves the state in which
    the session was updated with the header of the response. *)
Theorem handler_updates_header_on_create_only :
  forall (W : Type) (m : @counter.SessionHandler W)
         (s s' : @counter.Session W) (w : W),
    counter.GetHeader s = counter.GetHeader s' ->
    counter.Close m s w = counter.Close m s' w /\
    counter.Delete m s w = counter.Delete m s' w /\
    counter.KeepAlive m s w = Done None w /\
    (forall e w',
       counter.Create m s w = Done (Some e) w' ->
       counter.Create m s' w = Done (Some e) w' /\
       exists response,
         counter.pb_Create (counter.client m)
           {| counter.CreateRequest_Header := fst (counter.GetHeader s w) |}
           (snd (counter.GetHeader s w)) = (response, Some e, w')) /\
    (forall w',
       counter.Create m s w = Done None w' ->
       exists response w2,
         counter.pb_Create (counter.client m)
           {| counter.CreateRequest_Header := fst (counter.GetHeader s w) |}
           (snd (counter.GetHeader s w)) = (response, None, w2) /\
         w' = snd (counter.UpdateHeader s
                     (counter.CreateResponse_Header response) w2)).
Proof.
  intros W m s s' w Hget.
  split; [|split; [|split; [|split]]].
  - unfold counter.Close. now rewrite Hget.
  - unfold counter.Delete. now rewrite Hget.
  - reflexivity.
  - intros e w'. unfold counter.Create, bind, call. rewrite <- Hget.
    destruct (counter.GetHeader s w) as [h w1]. cbn.
    destruct (counter.pb_Create (counter.client m) _ w1)
      as [[response [e0|]] w2].
    + unfold ret. intros H. injection H as <- <-.
      split; [reflexivity | eauto].
    + destruct (counter.UpdateHeader s _ w2). unfold ret. discriminate.
  - intros w'. unfold counter.Create, bind, call.
    destruct (counter.GetHeader s w) as [h w1]. cbn.
    destruct (counter.pb_Create (counter.client m) _ w1)
      as [[response [e0|]] w2].
    + unfold ret. discriminate.
    + destruct (counter.UpdateHeader s _ w2) as [u w3] eqn:Hu.
      unfold ret. intros H. injection H as <-.
      exists response, w2. split; [reflexivity|]. now rewrite Hu.
Qed.

Lemma handler_updates_header_on_create_only_witness :
  counter.Create (recorder.handler true) recorder.session recorder.start =
  Done (Some (TransportError "unavailable"))
       {| recorder.header := None;
          recorder.received :=
            [recorder.created {| counter.CreateRequest_Header := None |}] |}
  /\
  counter.Create (recorder.handler false) recorder.session recorder.start =
  Done None
       {| recorder.header := recorder.header_of (Some recorder.assigned);
          recorder.received :=
            [recorder.created {| counter.CreateRequest_Header := None |}] |}.
Proof.
  split.
  - destruct (handler_updates_header_on_create_only recorder.World
                (recorder.handler true) recorder.session recorder.session
                recorder.start eq_refl) as (_ & _ & _ & Hfail & _).
    destruct (Hfail (TransportError "unavailable") _ eq_refl) as [Hrun _].
    exact Hrun.
  - destruct (handler_updates_header_on_create_only recorder.World
                (recorder.handler false) recorder.session recorder.session
                recorder.start eq_refl) as (_ & _ & _ & _ & Hok).
    destruct (Hok _ eq_refl) as (response & w2 & _ & _).
    reflexivity.
Defined.
